(** * tcp_client.c: framing, reassembly and script reading

    A shallow embedding of [src/tcp_client.c].  Memory regions are lists of
    characters, C [int]s are [Z], the socket and the script file are explicit
    schedules of what the kernel hands back, and every way the C program can
    leave a function (return, [exit], an access outside an allocation) is a
    constructor of an outcome type. *)

From Stdlib Require Import String Ascii ZArith List Bool Lia.
Import ListNotations.
Local Open Scope Z_scope.

(** ** Constants of the translation unit *)

Definition EXIT_SUCCESS : Z := 0.
Definition EXIT_FAILURE : Z := 1.
Definition INT_MAX : Z := 2147483647.
Definition NUMBER_OF_ACTIONS : nat := 5.
Definition PAYLOAD_MEMORY_BUFFER : Z := 10.
Definition DEFAULT_BUFFER_SIZE : Z := 1024.
(** [char char_message_length[10]] *)
Definition CHAR_MESSAGE_LENGTH_SIZE : Z := 10.

(** ** The C library, as far as the client uses it *)

Module LibC.

Definition NUL : ascii := "000"%char.
Definition SP : ascii := " "%char.
Definition LF : ascii := "010"%char.

(** A string literal as the characters it stores (terminator left out). *)
Definition lit (s : string) : list ascii := list_ascii_of_string s.

Definition code (c : ascii) : Z := Z.of_nat (nat_of_ascii c).

Definition isdigit (c : ascii) : bool := (48 <=? code c) && (code c <=? 57).

(** [isspace] in the C locale: space, \t, \n, \v, \f, \r. *)
Definition isspace (c : ascii) : bool :=
  (code c =? 32) || ((9 <=? code c) && (code c <=? 13)).

(** [tolower] in the C locale. *)
Definition tolower (c : ascii) : ascii :=
  if (65 <=? code c) && (code c <=? 90)
  then ascii_of_nat (nat_of_ascii c + 32)
  else c.

(** The C string stored at the start of a region: everything before the
    first NUL.  A region without NUL is read to its end. *)
Fixpoint cstr (mem : list ascii) : list ascii :=
  match mem with
  | [] => []
  | c :: rest => if Ascii.eqb c NUL then [] else c :: cstr rest
  end.

Definition strlen (mem : list ascii) : Z := Z.of_nat (length (cstr mem)).

(** [strcmp(a, b) == 0] *)
Definition streq (a b : list ascii) : bool :=
  if list_eq_dec ascii_dec (cstr a) (cstr b) then true else false.

(** Result of scanning a region for a character. *)
Inductive scan : Type :=
| Found (i : nat)     (* pointer to offset i *)
| NotFound            (* NULL: the terminator came first *)
| Overrun.            (* neither came before the end of the region *)

(** [strchr(mem, c)] for a non-NUL [c]. *)
Fixpoint strchr (mem : list ascii) (c : ascii) : scan :=
  match mem with
  | [] => Overrun
  | x :: rest =>
      if Ascii.eqb x c then Found 0
      else if Ascii.eqb x NUL then NotFound
      else match strchr rest c with
           | Found i => Found (S i)
           | other => other
           end
  end.

(** Digits of a non-negative number, most significant first; [fuel]
    bounds the number of digits. *)
Fixpoint digits_of (fuel : nat) (n : Z) (acc : list ascii) : list ascii :=
  match fuel with
  | O => acc
  | S fuel' =>
      let acc' := ascii_of_nat (Z.to_nat (48 + n mod 10)) :: acc in
      if n / 10 =? 0 then acc' else digits_of fuel' (n / 10) acc'
  end.

(** The conversion [%d] of printf. *)
Definition print_int (n : Z) : list ascii :=
  if n <? 0
  then "-"%char :: digits_of (S (Z.to_nat (Z.log2 (- n)))) (- n) []
  else digits_of (S (Z.to_nat (Z.log2 n))) n [].

Fixpoint skip_space (s : list ascii) : list ascii :=
  match s with
  | c :: rest => if isspace c then skip_space rest else s
  | [] => []
  end.

Fixpoint atoi_digits (acc : Z) (s : list ascii) : Z :=
  match s with
  | c :: rest =>
      if isdigit c then atoi_digits (acc * 10 + (code c - 48)) rest else acc
  | [] => acc
  end.

(** [atoi]: leading white space, an optional sign, then digits. *)
Definition atoi (s : list ascii) : Z :=
  match skip_space (cstr s) with
  | c :: rest =>
      if Ascii.eqb c "-"%char then - atoi_digits 0 rest
      else if Ascii.eqb c "+"%char then atoi_digits 0 rest
      else atoi_digits 0 (c :: rest)
  | [] => 0
  end.

(** Longest prefix whose characters satisfy [p], and what follows it. *)
Fixpoint span (p : ascii -> bool) (s : list ascii)
  : list ascii * list ascii :=
  match s with
  | c :: rest =>
      if p c then let (tok, tl) := span p rest in (c :: tok, tl)
      else ([], s)
  | [] => ([], [])
  end.

End LibC.
Import LibC.

(** How a call can end. *)
Inductive outcome : Type :=
| Returned (rc : Z)      (* the function returns [rc] to its caller *)
| Exited (status : Z)    (* [exit(status)]: the process ends, no return *)
| Fault                  (* an access outside an allocation *)
| Blocked                (* the schedule of the connection ran out *)
| OutOfFuel.


(** [size_t] to [int]: the value modulo 2^32, read as two's complement. *)
Definition int_of (z : Z) : Z := (z + 2147483648) mod 4294967296 - 2147483648.

(** ** tcp_client_send_request *)

(** What one call of [send] meets: a transport that takes up to [k] bytes of
    what it is offered, or a failing socket (send returns -1). *)
Inductive send_event : Type :=
| SendTakes (k : nat)
| SendError.

(** [malloc(payload_length)] followed by
    [sprintf(request, "%s %d %s", action, message_length, message)]:
    the characters stored before the terminator, or [None] when sprintf
    writes past the allocation. *)
Definition format_request (action message : list ascii) : option (list ascii) :=
  let message_length := int_of (strlen message) in
  let payload_length :=
    int_of (strlen action + strlen message + PAYLOAD_MEMORY_BUFFER) in
  let request :=
    cstr action ++ SP :: print_int message_length ++ SP :: cstr message in
  if (0 <=? payload_length) && (Z.of_nat (length request) + 1 <=? payload_length)
  then Some request
  else None.

(** The loop [while (total_bytes_sent < request_length)].  The second
    component collects the bytes handed to the connection, in order. *)
Fixpoint send_loop (sched : list send_event) (request : list ascii)
    (request_length total_bytes_sent : Z) (wire : list ascii)
  : outcome * list ascii :=
  if total_bytes_sent <? request_length then
    match sched with
    | [] => (Blocked, wire)
    | SendError :: _ => (Exited EXIT_FAILURE, wire)
    | SendTakes k :: sched' =>
        (* send(sockfd, request, request_length - total_bytes_sent, 0) *)
        let len := request_length - total_bytes_sent in
        let bytes_sent := Z.min (Z.of_nat k) len in
        send_loop sched' request request_length
          (total_bytes_sent + bytes_sent)
          (wire ++ firstn (Z.to_nat bytes_sent) request)
    end
  else (Returned EXIT_SUCCESS, wire).

(** When sprintf has written past the allocation the behaviour of the C
    program is undefined: the model stops there with [Fault] and says
    nothing about what the lines after it send. *)
Definition tcp_client_send_request (sched : list send_event)
    (action message : list ascii) : outcome * list ascii :=
  match format_request action message with
  | None => (Fault, [])
  | Some request => send_loop sched request (int_of (strlen request)) 0 []
  end.

(** ** tcp_client_receive_response *)

(** What one call of [recv] meets: bytes waiting on the connection (none:
    the peer has closed), or a failing socket (recv returns -1). *)
Inductive recv_event : Type :=
| RecvBytes (data : list ascii)
| RecvError.

Definition peer_closed : recv_event := RecvBytes [].

Inductive recv_result : Type :=
| Received (n : Z) (mem : list ascii) (conn : list recv_event)
| RecvFailed
| RecvFault
| RecvBlocked.

(** [recv(sockfd, mem + offset, len, 0)] on the region [mem].  [len] is a
    [size_t]: a negative value is a huge one.  Bytes that do not fit stay on
    the connection for the next call. *)
Definition recv (conn : list recv_event) (mem : list ascii) (offset len : Z)
  : recv_result :=
  match conn with
  | [] => RecvBlocked
  | RecvError :: _ => RecvFailed
  | RecvBytes [] :: conn' => Received 0 mem conn'
  | RecvBytes data :: conn' =>
      if len =? 0 then Received 0 mem conn
      else
        let n := if len <? 0 then Z.of_nat (length data)
                 else Z.min (Z.of_nat (length data)) len in
        if (offset <? 0) || (Z.of_nat (length mem) <? offset + n) then RecvFault
        else
          let mem' := firstn (Z.to_nat offset) mem
                      ++ firstn (Z.to_nat n) data
                      ++ skipn (Z.to_nat (offset + n)) mem in
          match skipn (Z.to_nat n) data with
          | [] => Received n mem' conn'
          | unread => Received n mem' (RecvBytes unread :: conn')
          end
  end.

(** The locals of the receive loop that outlive one iteration. *)
Record reassembly : Type := mkReassembly {
  buffer : list ascii;
  buffer_size : Z;
  total_bytes_received : Z
}.

Definition set_total (r : reassembly) (t : Z) : reassembly :=
  mkReassembly (buffer r) (buffer_size r) t.

(** [memmove(buffer, buffer + bytes_read, buffer_size - bytes_read);
     total_bytes_received -= bytes_read;] *)
Definition shift (r : reassembly) (bytes_read : Z) : reassembly :=
  let kept := Z.to_nat (buffer_size r - bytes_read) in
  mkReassembly
    (firstn kept (skipn (Z.to_nat bytes_read) (buffer r)) ++ skipn kept (buffer r))
    (buffer_size r)
    (total_bytes_received r - bytes_read).

(** What the body of the inner loop finds at the start of the buffer, up to
    the call of the callback (lines 265-289). *)
Inductive parsed : Type :=
| NoPrefix          (* no space, or no digit first: total := 0; break *)
| TooSmall          (* the declared length does not fit: grow; break *)
| Incomplete        (* fewer bytes than the declared length: break *)
| Complete (message : list ascii) (bytes_read : Z)
| ParseFault.       (* a read or write outside an allocation *)

Definition parse_frame (r : reassembly) : parsed :=
  match strchr (buffer r) SP with
  | Overrun => ParseFault
  | NotFound => NoPrefix
  | Found i =>
      if negb (isdigit (nth 0 (buffer r) NUL)) then NoPrefix
      else if CHAR_MESSAGE_LENGTH_SIZE <=? Z.of_nat i
      then ParseFault     (* char_message_length[i] = '\0' with i >= 10 *)
      else
        let char_message_length := firstn i (buffer r) in
        let message_length := atoi char_message_length in
        if message_length >? buffer_size r - Z.of_nat i - 1 then TooSmall
        else if total_bytes_received r <? message_length then Incomplete
        else
          (* strncpy(message, first_space_addr + 1, message_length);
             message[message_length] = '\0'; *)
          Complete
            (cstr (firstn (Z.to_nat message_length) (skipn (S i) (buffer r))))
            (strlen char_message_length + message_length + 1)
  end.

Section Receive.

(** Contents of memory that malloc and realloc hand out unwritten, by
    offset in the buffer's allocation. *)
Variable uninitialised : nat -> ascii.

(** The callback, with whatever state it keeps between calls; it gets the
    message as a C string. *)
Variable H : Type.
Variable handle_response : H -> list ascii -> H * bool.

(** [buffer_size = buffer_size * 2; buffer = realloc(buffer, buffer_size);] *)
Definition grow (r : reassembly) : reassembly :=
  let old := Z.to_nat (buffer_size r) in
  mkReassembly (buffer r ++ map uninitialised (seq old old))
               (buffer_size r * 2)
               (total_bytes_received r).

(** How the inner [while (1)] is left. *)
Inductive decoded : Type :=
| Break (r : reassembly) (h : H) (log : list (list ascii))
| AllDone (r : reassembly) (h : H) (log : list (list ascii))
| DecodeFault (r : reassembly) (h : H) (log : list (list ascii))
| DecodeOutOfFuel.

(** The inner loop.  [log] collects the messages passed to the callback. *)
Fixpoint decode_loop (fuel : nat) (r : reassembly) (h : H)
    (log : list (list ascii)) : decoded :=
  match fuel with
  | O => DecodeOutOfFuel
  | S fuel' =>
      match parse_frame r with
      | ParseFault => DecodeFault r h log
      | NoPrefix => Break (set_total r 0) h log
      | TooSmall =>
          if buffer_size r * 2 >? INT_MAX then DecodeFault r h log
          else Break (grow r) h log
      | Incomplete => Break r h log
      | Complete message bytes_read =>
          let (h', done) := handle_response h message in
          if done then AllDone r h' (log ++ [message])
          else decode_loop fuel' (shift r bytes_read) h' (log ++ [message])
      end
  end.

(** What a run leaves behind. *)
Record run : Type := mkRun {
  ended : outcome;
  handled : list (list ascii);   (* messages given to the callback *)
  handler_state : H;
  locals : reassembly
}.

Inductive pass : Type :=
| Again (conn : list recv_event) (r : reassembly) (h : H)
        (log : list (list ascii))
| Stop (res : run).

(** One pass through the body of the outer [while (1)], entered with
    [all_done == 0]. *)
Definition iteration (conn : list recv_event) (r : reassembly) (h : H)
    (log : list (list ascii)) : pass :=
  match recv conn (buffer r) (total_bytes_received r)
             (buffer_size r - total_bytes_received r) with
  | RecvBlocked => Stop (mkRun Blocked log h r)
  | RecvFailed => Stop (mkRun (Exited EXIT_FAILURE) log h r)
  | RecvFault => Stop (mkRun Fault log h r)
  | Received bytes_received mem conn' =>
      if bytes_received =? 0 then Stop (mkRun (Returned EXIT_SUCCESS) log h r)
      else
        let r1 := mkReassembly mem (buffer_size r)
                    (total_bytes_received r + bytes_received) in
        match decode_loop (S (Z.to_nat (total_bytes_received r1))) r1 h log with
        | Break r2 h' log' => Again conn' r2 h' log'
        | AllDone r2 h' log' => Stop (mkRun (Returned EXIT_SUCCESS) log' h' r2)
        | DecodeFault r2 h' log' => Stop (mkRun Fault log' h' r2)
        | DecodeOutOfFuel => Stop (mkRun OutOfFuel log h r1)
        end
  end.

Fixpoint receive_loop (fuel : nat) (conn : list recv_event) (r : reassembly)
    (h : H) (log : list (list ascii)) : run :=
  match fuel with
  | O => mkRun OutOfFuel log h r
  | S fuel' =>
      match iteration conn r h log with
      | Stop res => res
      | Again conn' r' h' log' => receive_loop fuel' conn' r' h' log'
      end
  end.

(** Every pass takes at least one byte or one event off the connection. *)
Fixpoint pending (conn : list recv_event) : nat :=
  match conn with
  | [] => 0
  | RecvBytes data :: conn' => S (length data + pending conn')
  | RecvError :: conn' => S (pending conn')
  end.

Definition initial : reassembly :=
  mkReassembly (map uninitialised (seq 0 (Z.to_nat DEFAULT_BUFFER_SIZE)))
               DEFAULT_BUFFER_SIZE 0.

Definition tcp_client_receive_response (conn : list recv_event) (h : H) : run :=
  receive_loop (S (pending conn)) conn initial h [].

End Receive.

Arguments Break {H}.
Arguments AllDone {H}.
Arguments DecodeFault {H}.
Arguments DecodeOutOfFuel {H}.
Arguments Again {H}.
Arguments Stop {H}.
Arguments mkRun {H}.
Arguments ended {H}.
Arguments handled {H}.
Arguments handler_state {H}.
Arguments locals {H}.

(** ** is_valid_action and tcp_client_get_line *)

Definition actions : list (list ascii) :=
  [lit "uppercase"; lit "lowercase"; lit "reverse"; lit "shuffle"; lit "random"].

(** The loop over the [NUMBER_OF_ACTIONS] literals, [strcmp] on each. *)
Definition is_valid_action (action : list ascii) : bool :=
  existsb (fun i => streq action (nth i actions []))
          (seq 0 NUMBER_OF_ACTIONS).

(** What [*action] and [*message] point to. *)
Inductive slot : Type :=
| Untouched                (* what the caller had put there *)
| Unwritten                (* a fresh allocation nothing was stored in *)
| Text (s : list ascii).   (* a C string *)

Inductive scanned : Type :=
| Scanned (action message : slot)
| ScanFault.

(** [malloc]s of [action_size] and [message_size] bytes followed by
    [sscanf(line, "%s %[^\n]", *action, *message)]: white space is skipped
    before [%s] and at the blank of the format; a conversion that matches
    nothing stops the scan and stores nothing. *)
Definition scan_action_message (line : list ascii)
    (action_size message_size : Z) : scanned :=
  let (tok, after) := span (fun c => negb (isspace c)) (skip_space line) in
  match tok with
  | [] => Scanned Unwritten Unwritten
  | _ =>
      if action_size <? Z.of_nat (length tok) + 1 then ScanFault
      else
        let (msg, _) := span (fun c => negb (Ascii.eqb c LF)) (skip_space after) in
        match msg with
        | [] => Scanned (Text tok) Unwritten
        | _ =>
            if message_size <? Z.of_nat (length msg) + 1 then ScanFault
            else Scanned (Text tok) (Text msg)
        end
  end.

Inductive line_result : Type :=
| LineResult (read : Z) (action message : slot) (fd : list (list ascii))
| LineFault.

(** The file is the sequence of lines that [getline] returns, each with its
    newline when it has one; at its end getline returns -1.  [read] is kept
    as the length of the line (the C function narrows it to int, which
    differs for lines of 2^31 bytes or more); a scan that stored no action
    leaves strcmp to read memory never written, which the model counts as a
    fault. *)
Fixpoint tcp_client_get_line (fd : list (list ascii)) (action message : slot)
  : line_result :=
  match fd with
  | [] => LineResult (-1) action message []
  | line :: fd' =>
      if streq line [LF] || Ascii.eqb (nth 0 line NUL) SP
      then tcp_client_get_line fd' action message
      else
        match strchr (line ++ [NUL]) SP with
        | Found i =>
            match scan_action_message (cstr line) (Z.of_nat i + 1)
                    (strlen (skipn (S i) line)) with
            | ScanFault => LineFault
            | Scanned (Text tok) message' =>
                if is_valid_action tok
                then LineResult (Z.of_nat (length line)) (Text tok) message' fd'
                else tcp_client_get_line fd' (Text tok) message'
            | Scanned _ _ => LineFault  (* strcmp on memory never written *)
            end
        | _ => tcp_client_get_line fd' action message
        end
  end.

(** Memory that happens to be zero-filled, and two callbacks for examples:
    one that never reports completion and one that counts down. *)
Definition zeroed (_ : nat) : ascii := NUL.
Definition keep_going (u : unit) (_ : list ascii) : unit * bool := (u, false).
Definition count_down (n : nat) (_ : list ascii) : nat * bool :=
  (Nat.pred n, Nat.leb n 1).

(** ** tcp_client_connect *)

(** The configuration filled in by the argument parser. *)
Record Config : Type := mkConfig {
  port : list ascii;
  host : list ascii;
  file : list ascii
}.

(** One address of the list that getaddrinfo returns, as the system calls on
    it turn out: what [socket] returns for it (a descriptor, or -1) and what
    [connect] returns on that descriptor (0, or -1). *)
Record addrinfo : Type := mkAddrinfo {
  ai_socket : Z;
  ai_connect : Z
}.

(** What a call of tcp_client_connect leaves behind: how it ended, the
    descriptors [socket] handed out and the ones given to [close]. *)
Record connection : Type := mkConnection {
  connected : outcome;
  opened : list Z;
  closed : list Z
}.

(** [for (p = servinfo; p != NULL; p = p->ai_next)] and the return that
    follows it. *)
Fixpoint connect_loop (servinfo : list addrinfo) (opened closed : list Z)
  : connection :=
  match servinfo with
  | [] => mkConnection (Returned (-1)) opened closed    (* p == NULL *)
  | p :: ai_next =>
      let sockfd := ai_socket p in
      if sockfd =? -1 then connect_loop ai_next opened closed
      else if ai_connect p =? -1
      then connect_loop ai_next (opened ++ [sockfd]) (closed ++ [sockfd])
      else mkConnection (Returned sockfd) (opened ++ [sockfd]) closed
  end.

(** [getaddrinfo] gives its return value and the list it stores in
    [servinfo] for a host and a port. *)
Definition tcp_client_connect
    (getaddrinfo : list ascii -> list ascii -> Z * list addrinfo)
    (config : Config) : connection :=
  let (rv, servinfo) := getaddrinfo (host config) (port config) in
  if negb (rv =? 0) then mkConnection (Exited EXIT_FAILURE) [] []
  else connect_loop servinfo [] [].

(** ** tcp_client_parse_arguments *)

Definition ALL_OPTIONS_PARSED : Z := -1.
Definition REQUIRED_NUMBER_OF_ARGUMENTS_OFFSET : Z := 1.

(** How the parser ends: it returns [rc] with the configuration filled in
    and the log level raised or not, or it leaves the process. *)
Inductive parse_result : Type :=
| Parsed (rc : Z) (config : Config) (verbose : bool)
| ParseExit (status : Z).

Section ParseArguments.

(** The defaults of tcp_client.h. *)
Variable TCP_CLIENT_DEFAULT_PORT : list ascii.
Variable TCP_CLIENT_DEFAULT_HOST : list ascii.

(** The checks on the number of arguments left and the rest of the
    function, once getopt_long has returned ALL_OPTIONS_PARSED and left
    [optind]. *)
Definition after_options (argc : Z) (argv : list (list ascii)) (optind : Z)
    (config : Config) (verbose : bool) : parse_result :=
  if argc - optind <? REQUIRED_NUMBER_OF_ARGUMENTS_OFFSET
  then ParseExit EXIT_FAILURE
  else if argc - optind >? REQUIRED_NUMBER_OF_ARGUMENTS_OFFSET
  then ParseExit EXIT_FAILURE
  else Parsed EXIT_SUCCESS
         (mkConfig (port config) (host config)
                   (nth (Z.to_nat (argc - 1)) argv []))
         verbose.

(** The loop [while (1)] over what getopt_long returns call after call:
    each element of [options] is a return value with the [optarg] it sets;
    after the last one getopt_long returns ALL_OPTIONS_PARSED. *)
Fixpoint options_loop (options : list (Z * list ascii)) (argc : Z)
    (argv : list (list ascii)) (optind : Z) (config : Config)
    (verbose : bool) : parse_result :=
  match options with
  | [] => after_options argc argv optind config verbose
  | (getopt_return_value, optarg) :: rest =>
      if getopt_return_value =? ALL_OPTIONS_PARSED
      then after_options argc argv optind config verbose
      else if getopt_return_value =? 0 then ParseExit EXIT_SUCCESS
      else if getopt_return_value =? code "v"
      then options_loop rest argc argv optind config true
      else if getopt_return_value =? code "h"
      then options_loop rest argc argv optind
             (mkConfig (port config) optarg (file config)) verbose
      else if getopt_return_value =? code "p"
      then
        if forallb isdigit (cstr optarg)
        then options_loop rest argc argv optind
               (mkConfig optarg (host config) (file config)) verbose
        else ParseExit EXIT_FAILURE
      else if getopt_return_value =? code "?" then ParseExit EXIT_FAILURE
      else options_loop rest argc argv optind config verbose
  end.

(** [argv] is the vector as getopt_long leaves it, the arguments that are
    no options moved to its end. *)
Definition tcp_client_parse_arguments (argc : Z) (argv : list (list ascii))
    (options : list (Z * list ascii)) (optind : Z) (unset : list ascii)
  : parse_result :=
  options_loop options argc argv optind
    (mkConfig TCP_CLIENT_DEFAULT_PORT TCP_CLIENT_DEFAULT_HOST unset) false.

End ParseArguments.

(** The argument of the last option [c] among [options] (up to the point
    where getopt_long reports the end), [default] when there is none. *)
Fixpoint last_optarg (c : Z) (options : list (Z * list ascii))
    (default : list ascii) : list ascii :=
  match options with
  | [] => default
  | (c', optarg) :: rest =>
      if c' =? ALL_OPTIONS_PARSED then default
      else last_optarg c rest (if c' =? c then optarg else default)
  end.

(** The options after which the parser goes on: anything but the end, the
    help option, an unknown option and a port with a character that is no
    digit. *)
Definition passes (o : Z * list ascii) : bool :=
  negb (fst o =? ALL_OPTIONS_PARSED) && negb (fst o =? 0)
  && negb (fst o =? code "?")
  && (negb (fst o =? code "p") || forallb isdigit (cstr (snd o))).

(** The addresses that cannot be connected to. *)
Definition unreachable (p : addrinfo) : bool :=
  (ai_socket p =? -1) || (ai_connect p =? -1).

(** The descriptors [socket] hands out for a list of addresses. *)
Definition sockets_of (servinfo : list addrinfo) : list Z :=
  map ai_socket (filter (fun p => negb (ai_socket p =? -1)) servinfo).

(** ** Notions used to state the properties *)

(** No NUL inside: the characters are a C string as they stand. *)
Definition no_nul (s : list ascii) : bool :=
  forallb (fun c => negb (Ascii.eqb c NUL)) s.

(** A word as [%s] reads it: no white space and no NUL inside. *)
Definition word (s : list ascii) : bool :=
  forallb (fun c => negb (isspace c) && negb (Ascii.eqb c NUL)) s.

(** Text of a line: neither NUL nor newline inside. *)
Definition line_text (s : list ascii) : bool :=
  forallb (fun c => negb (Ascii.eqb c LF) && negb (Ascii.eqb c NUL)) s.

(** The lines of a script that the reader passes over. *)
Inductive skipped : list ascii -> Prop :=
| skipped_empty : skipped [LF]
| skipped_leading_space rest : skipped (SP :: rest)
| skipped_no_space line : ~ In SP line -> skipped line
| skipped_bad_action tok tail :
    tok <> [] -> word tok = true -> no_nul tail = true ->
    is_valid_action tok = false ->
    skipped (tok ++ SP :: tail ++ [LF]).

(** Following the spec's words: the message of a line runs from after the
    first space to the end of the line, the newline excluded. *)
Fixpoint after_first_space (line : list ascii) : option (list ascii) :=
  match line with
  | [] => None
  | c :: rest => if Ascii.eqb c SP then Some rest else after_first_space rest
  end.

Definition spec_message (line : list ascii) : option (list ascii) :=
  match after_first_space line with
  | Some m => Some (fst (span (fun c => negb (Ascii.eqb c LF)) m))
  | None => None
  end.

(** A response frame as the peer writes it: the decimal length of the
    payload, one space, the payload. *)
Definition frame (payload : list ascii) : list ascii :=
  print_int (Z.of_nat (length payload)) ++ SP :: payload.

Definition frames (payloads : list (list ascii)) : list ascii :=
  concat (map frame payloads).





(** The bookkeeping of the receive loop: [buffer_size] is the size of the
    allocation and the count of valid bytes does not exceed it. *)
Definition well_kept (r : reassembly) : Prop :=
  Z.of_nat (length (buffer r)) = buffer_size r
  /\ total_bytes_received r <= buffer_size r.

(** * Properties *)

(** ** Sending *)

Lemma send_loop_never_returns_failure sched request request_length total wire :
  fst (send_loop sched request request_length total wire)
  <> Returned EXIT_FAILURE.
Proof.
  revert total wire.
  induction sched as [|ev sched IH]; intros total wire; simpl;
    destruct (total <? request_length); simpl; try discriminate.
  destruct ev; simpl; [apply IH | discriminate].
Qed.

(** C3 (the code departs from the claim).  With "uppercase" / "hello" and a
    connection that takes 9 bytes at the first write and 8 at the second,
    both writes start at the first byte of the request: the bytes on the
    wire are "uppercase" followed by "uppercas", not the encoded frame
    "uppercase 5 hello", and the function still returns success. *)
Theorem send_request_partial_write_resends_prefix :
  tcp_client_send_request [SendTakes 9; SendTakes 8]
    (lit "uppercase") (lit "hello")
  = (Returned EXIT_SUCCESS, lit "uppercaseuppercas")
  /\ lit "uppercaseuppercas" <> lit "uppercase 5 hello".
Proof. split; [reflexivity | discriminate]. Qed.

(** C5 (the code departs from the claim).  No call of
    tcp_client_send_request returns the failure value: when a write fails
    after 9 bytes went out, the process exits with status EXIT_FAILURE and
    the caller gets nothing back. *)
Theorem send_request_write_error_exits :
  (forall sched action message,
      fst (tcp_client_send_request sched action message)
      <> Returned EXIT_FAILURE)
  /\ tcp_client_send_request [SendTakes 9; SendError]
       (lit "uppercase") (lit "hello")
     = (Exited EXIT_FAILURE, lit "uppercase").
Proof.
  split; [|reflexivity].
  intros sched action message. unfold tcp_client_send_request.
  destruct (format_request action message);
    [apply send_loop_never_returns_failure | discriminate].
Qed.

(** ** Receiving: end of stream *)

(** C6.  In every state of the receive loop, whatever was handled before,
    a read that returns zero bytes ends the pass and the loop with the
    return value EXIT_SUCCESS; nothing more is given to the callback. *)
Theorem receive_zero_bytes_returns_success
    (uninitialised : nat -> ascii) (H : Type)
    (handle_response : H -> list ascii -> H * bool)
    (conn conn' : list recv_event) (mem : list ascii)
    (r : reassembly) (h : H) (log : list (list ascii)) (fuel : nat)
    (Hzero : recv conn (buffer r) (total_bytes_received r)
               (buffer_size r - total_bytes_received r)
             = Received 0 mem conn') :
  iteration uninitialised H handle_response conn r h log
  = Stop (mkRun (Returned EXIT_SUCCESS) log h r)
  /\ receive_loop uninitialised H handle_response (S fuel) conn r h log
     = mkRun (Returned EXIT_SUCCESS) log h r.
Proof.
  assert (Hit : iteration uninitialised H handle_response conn r h log
                = Stop (mkRun (Returned EXIT_SUCCESS) log h r)).
  { unfold iteration. rewrite Hzero. reflexivity. }
  split; [exact Hit|]. simpl. rewrite Hit. reflexivity.
Qed.

Lemma receive_zero_bytes_returns_success_witness :
  iteration zeroed nat count_down [peer_closed]
    (mkReassembly (lit "3 ab") 4 4) 2%nat [lit "HELLO"]
  = Stop (mkRun (Returned EXIT_SUCCESS) [lit "HELLO"] 2%nat
            (mkReassembly (lit "3 ab") 4 4))
  /\ receive_loop zeroed nat count_down 1 [peer_closed]
       (mkReassembly (lit "3 ab") 4 4) 2%nat [lit "HELLO"]
     = mkRun (Returned EXIT_SUCCESS) [lit "HELLO"] 2%nat
         (mkReassembly (lit "3 ab") 4 4).
Proof.
  apply (receive_zero_bytes_returns_success zeroed nat count_down
           [peer_closed] [] (lit "3 ab")).
  reflexivity.
Defined.

(** ** C strings *)

Lemma cstr_app s t : no_nul s = true -> cstr (s ++ t) = s ++ cstr t.
Proof.
  induction s as [|c s IH]; simpl; [reflexivity|].
  intros Hs. apply andb_prop in Hs. destruct Hs as [Hc Hs].
  destruct (Ascii.eqb c NUL); [discriminate|].
  now rewrite IH.
Qed.

Lemma cstr_clean s : no_nul s = true -> cstr s = s.
Proof.
  intros Hs. rewrite <- (app_nil_r s) at 1.
  rewrite cstr_app by assumption. simpl. apply app_nil_r.
Qed.

Lemma strchr_app s rest :
  forallb (fun c => negb (Ascii.eqb c SP) && negb (Ascii.eqb c NUL)) s = true ->
  strchr (s ++ SP :: rest) SP = Found (length s).
Proof.
  induction s as [|c s IH]; simpl; [reflexivity|].
  intros Hs. apply andb_prop in Hs. destruct Hs as [Hc Hs].
  apply andb_prop in Hc. destruct Hc as [Hsp Hnul].
  destruct (Ascii.eqb c SP); [discriminate|].
  destruct (Ascii.eqb c NUL); [discriminate|].
  now rewrite IH.
Qed.

Lemma strchr_absent s :
  ~ In SP s -> strchr (s ++ [NUL]) SP = NotFound.
Proof.
  induction s as [|c s IH]; simpl; [reflexivity|].
  intros Hs. destruct (Ascii.eqb_spec c SP) as [->|_]; [tauto|].
  destruct (Ascii.eqb c NUL); [reflexivity|].
  rewrite IH; tauto.
Qed.

Lemma span_app p s c rest :
  forallb p s = true -> p c = false -> span p (s ++ c :: rest) = (s, c :: rest).
Proof.
  intros Hs Hc. induction s as [|x s IH]; simpl.
  - now rewrite Hc.
  - simpl in Hs. apply andb_prop in Hs. destruct Hs as [Hx Hs].
    rewrite Hx, IH by assumption. reflexivity.
Qed.

Lemma forallb_weaken (p q : ascii -> bool) s :
  (forall c, p c = true -> q c = true) ->
  forallb p s = true -> forallb q s = true.
Proof.
  intros Hpq. rewrite !forallb_forall. auto.
Qed.

Lemma word_no_nul s : word s = true -> no_nul s = true.
Proof.
  apply forallb_weaken. intros c Hc. apply andb_prop in Hc. tauto.
Qed.

Lemma word_no_space s :
  word s = true ->
  forallb (fun c => negb (Ascii.eqb c SP) && negb (Ascii.eqb c NUL)) s = true.
Proof.
  apply forallb_weaken. intros c Hc. apply andb_prop in Hc.
  destruct Hc as [Hsp ->]. rewrite andb_true_r.
  destruct (Ascii.eqb_spec c SP) as [->|]; [discriminate Hsp | reflexivity].
Qed.

Lemma streq_true_iff a b : streq a b = true <-> cstr a = cstr b.
Proof.
  unfold streq. destruct (list_eq_dec ascii_dec (cstr a) (cstr b)).
  - tauto.
  - split; [discriminate | contradiction].
Qed.

(** ** Actions *)

Lemma is_valid_action_iff action :
  is_valid_action action = true <-> In (cstr action) actions.
Proof.
  unfold is_valid_action. rewrite existsb_exists. split.
  - intros [i [Hi Heq]]. apply streq_true_iff in Heq.
    simpl in Hi.
    destruct Hi as [<-|[<-|[<-|[<-|[<-|[]]]]]]; rewrite Heq; simpl; tauto.
  - intros Hin. simpl in Hin.
    destruct Hin as [E|[E|[E|[E|[E|[]]]]]].
    + exists 0%nat. split; [simpl; tauto | apply streq_true_iff; now rewrite <- E].
    + exists 1%nat. split; [simpl; tauto | apply streq_true_iff; now rewrite <- E].
    + exists 2%nat. split; [simpl; tauto | apply streq_true_iff; now rewrite <- E].
    + exists 3%nat. split; [simpl; tauto | apply streq_true_iff; now rewrite <- E].
    + exists 4%nat. split; [simpl; tauto | apply streq_true_iff; now rewrite <- E].
Qed.

Lemma actions_are_words tok : In tok actions -> tok <> [] /\ word tok = true.
Proof.
  intros Hin. simpl in Hin.
  destruct Hin as [<-|[<-|[<-|[<-|[<-|[]]]]]];
    (split; [discriminate | reflexivity]).
Qed.

Lemma tolower_clean c :
  negb (isspace (tolower c)) && negb (Ascii.eqb (tolower c) NUL) = true ->
  negb (isspace c) && negb (Ascii.eqb c NUL) = true.
Proof.
  destruct c as [[] [] [] [] [] [] [] []]; vm_compute; trivial.
Qed.

Lemma tolower_word s : word (map tolower s) = true -> word s = true.
Proof.
  unfold word. induction s as [|c s IH]; simpl; [reflexivity|].
  intros Hs. apply andb_prop in Hs. destruct Hs as [Hc Hs].
  rewrite (tolower_clean c Hc). simpl. auto.
Qed.

(** ** The script reader *)

Lemma skipn_past {A} (s : list A) c rest : skipn (S (length s)) (s ++ c :: rest) = rest.
Proof. induction s as [|x s IH]; simpl; [reflexivity | exact IH]. Qed.

Lemma strlen_clean s : no_nul s = true -> strlen s = Z.of_nat (length s).
Proof. intros Hs. unfold strlen. now rewrite cstr_clean. Qed.

Lemma no_nul_app s t : no_nul (s ++ t) = no_nul s && no_nul t.
Proof. apply forallb_app. Qed.

Lemma span_newline_length (y : list ascii) :
  (length (fst (span (fun c => negb (Ascii.eqb c LF)) (y ++ [LF]))) <= length y)%nat.
Proof.
  induction y as [|c y IH]; simpl; [lia|].
  destruct (negb (Ascii.eqb c LF)); simpl; [|lia].
  destruct (span _ (y ++ [LF])). simpl in *. lia.
Qed.

Lemma skip_space_newline_length (t : list ascii) :
  (length (fst (span (fun c => negb (Ascii.eqb c LF)) (skip_space (t ++ [LF]))))
   <= length t)%nat.
Proof.
  induction t as [|c t IH]; simpl; [lia|].
  destruct (isspace c); [lia|].
  change (c :: t ++ [LF]) with ((c :: t) ++ [LF]).
  apply span_newline_length.
Qed.

Lemma skip_space_spaces ws rest :
  forallb isspace ws = true -> skip_space (ws ++ rest) = skip_space rest.
Proof.
  induction ws as [|c ws IH]; simpl; [reflexivity|].
  intros Hws. apply andb_prop in Hws. destruct Hws as [-> Hws]. auto.
Qed.

Lemma skip_space_word c s : isspace c = false -> skip_space (c :: s) = c :: s.
Proof. intros Hc. simpl. now rewrite Hc. Qed.

(** The scan of a line that starts with a word followed by a space. *)
Lemma scan_after_word tok tail size :
  tok <> [] -> word tok = true ->
  scan_action_message (tok ++ SP :: tail) (Z.of_nat (length tok) + 1) size
  = let (msg, _) := span (fun c => negb (Ascii.eqb c LF)) (skip_space tail) in
    match msg with
    | [] => Scanned (Text tok) Unwritten
    | _ => if size <? Z.of_nat (length msg) + 1 then ScanFault
           else Scanned (Text tok) (Text msg)
    end.
Proof.
  intros Hne Hw. unfold scan_action_message.
  destruct tok as [|c tok]; [contradiction|].
  assert (Hc : isspace c = false).
  { simpl in Hw. apply andb_prop in Hw. destruct Hw as [Hc _].
    apply andb_prop in Hc. destruct Hc as [Hc _].
    now destruct (isspace c). }
  change ((c :: tok) ++ SP :: tail) with (c :: tok ++ SP :: tail).
  rewrite skip_space_word by assumption.
  change (c :: tok ++ SP :: tail) with ((c :: tok) ++ SP :: tail).
  rewrite span_app; [| |reflexivity].
  - rewrite Z.ltb_irrefl.
    change (skip_space (SP :: tail)) with (skip_space tail). reflexivity.
  - revert Hw. apply forallb_weaken. intros x Hx.
    apply andb_prop in Hx. tauto.
Qed.

(** One turn of the reader's loop on such a line. *)
Lemma get_line_word_line tok tail fd a0 m0 :
  tok <> [] -> word tok = true -> no_nul tail = true ->
  tcp_client_get_line ((tok ++ SP :: tail ++ [LF]) :: fd) a0 m0
  = match scan_action_message (tok ++ SP :: tail ++ [LF])
            (Z.of_nat (length tok) + 1) (Z.of_nat (length tail) + 1) with
    | ScanFault => LineFault
    | Scanned (Text t) m' =>
        if is_valid_action t
        then LineResult (Z.of_nat (length (tok ++ SP :: tail ++ [LF])))
               (Text t) m' fd
        else tcp_client_get_line fd (Text t) m'
    | Scanned _ _ => LineFault
    end.
Proof.
  intros Hne Hw Htail.
  assert (Hline : no_nul (tok ++ SP :: tail ++ [LF]) = true).
  { rewrite no_nul_app, (word_no_nul _ Hw). simpl.
    rewrite no_nul_app, Htail. reflexivity. }
  assert (Hrest : no_nul (tail ++ [LF]) = true).
  { rewrite no_nul_app, Htail. reflexivity. }
  destruct tok as [|c tok'] eqn:Etok; [contradiction|]. rewrite <- Etok in *.
  assert (Hc : isspace c = false /\ c <> NUL).
  { rewrite Etok in Hw. simpl in Hw. apply andb_prop in Hw. destruct Hw as [Hc _].
    apply andb_prop in Hc. destruct Hc as [Hsp Hnul].
    split; [now destruct (isspace c)|].
    intros ->. discriminate Hnul. }
  destruct Hc as [Hsp Hnul].
  cbn [tcp_client_get_line].
  assert (E1 : streq (tok ++ SP :: tail ++ [LF]) [LF] = false).
  { destruct (streq _ _) eqn:E; [|reflexivity].
    apply streq_true_iff in E. rewrite cstr_clean in E by assumption.
    rewrite Etok in E. simpl in E. injection E as -> _. discriminate Hsp. }
  assert (E2 : Ascii.eqb (nth 0 (tok ++ SP :: tail ++ [LF]) NUL) SP = false).
  { rewrite Etok. simpl. destruct (Ascii.eqb_spec c SP) as [->|]; [discriminate Hsp|reflexivity]. }
  rewrite E1, E2. cbn [orb].
  rewrite <- (app_assoc tok (SP :: tail ++ [LF]) [NUL]).
  change ((SP :: tail ++ [LF]) ++ [NUL]) with (SP :: (tail ++ [LF]) ++ [NUL]).
  rewrite strchr_app by (now apply word_no_space).
  rewrite cstr_clean by assumption.
  rewrite skipn_past, strlen_clean by assumption.
  rewrite length_app. cbn [length].
  replace (Z.of_nat (length tail + 1)) with (Z.of_nat (length tail) + 1) by lia.
  reflexivity.
Qed.

Lemma get_line_bad_action tok tail fd a0 m0 :
  tok <> [] -> word tok = true -> no_nul tail = true ->
  is_valid_action tok = false ->
  exists m',
    tcp_client_get_line ((tok ++ SP :: tail ++ [LF]) :: fd) a0 m0
    = tcp_client_get_line fd (Text tok) m'.
Proof.
  intros Hne Hw Htail Hbad.
  rewrite get_line_word_line by assumption.
  rewrite scan_after_word by assumption.
  pose proof (skip_space_newline_length tail) as Hlen.
  destruct (span _ (skip_space (tail ++ [LF]))) as [msg rest].
  simpl in Hlen.
  destruct msg as [|x msg].
  - rewrite Hbad. eauto.
  - destruct (Z.ltb_spec (Z.of_nat (length tail) + 1)
                         (Z.of_nat (length (x :: msg)) + 1)) as [Hlt|_].
    + simpl in Hlt, Hlen. lia.
    + rewrite Hbad. eauto.
Qed.

Lemma get_line_skipped line fd a0 m0 :
  skipped line ->
  exists a' m',
    tcp_client_get_line (line :: fd) a0 m0 = tcp_client_get_line fd a' m'.
Proof.
  intros Hs. destruct Hs as [|rest|line Hno|tok tail Hne Hw Htail Hbad].
  - exists a0, m0. reflexivity.
  - exists a0, m0. cbn [tcp_client_get_line]. simpl (nth 0 _ _).
    change (Ascii.eqb SP SP) with true. now rewrite orb_true_r.
  - exists a0, m0. cbn [tcp_client_get_line].
    rewrite strchr_absent by assumption.
    now destruct (streq line [LF] || Ascii.eqb (nth 0 line NUL) SP).
  - destruct (get_line_bad_action tok tail fd a0 m0) as [m' Hm']; eauto.
Qed.

Lemma get_line_good tok ws msg fd a0 m0 :
  In tok actions ->
  forallb isspace ws = true ->
  msg <> [] -> isspace (hd NUL msg) = false -> line_text msg = true ->
  tcp_client_get_line ((tok ++ SP :: (ws ++ msg) ++ [LF]) :: fd) a0 m0
  = LineResult (Z.of_nat (length (tok ++ SP :: (ws ++ msg) ++ [LF])))
      (Text tok) (Text msg) fd.
Proof.
  intros Hin Hws Hne Hhd Hmsg.
  destruct (actions_are_words tok Hin) as [Htok Hw].
  assert (Hvalid : is_valid_action tok = true).
  { apply is_valid_action_iff. now rewrite cstr_clean by now apply word_no_nul. }
  assert (Hnn : no_nul (ws ++ msg) = true).
  { rewrite no_nul_app. apply andb_true_intro. split.
    - revert Hws. apply forallb_weaken. intros c Hc.
      destruct (Ascii.eqb_spec c NUL) as [->|]; [discriminate Hc|reflexivity].
    - revert Hmsg. apply forallb_weaken. intros c Hc.
      apply andb_prop in Hc. tauto. }
  rewrite get_line_word_line by assumption.
  rewrite scan_after_word by assumption.
  rewrite <- app_assoc, skip_space_spaces by assumption.
  destruct msg as [|x msg]; [contradiction|]. simpl in Hhd.
  change ((x :: msg) ++ [LF]) with (x :: msg ++ [LF]).
  rewrite skip_space_word by assumption.
  change (x :: msg ++ [LF]) with ((x :: msg) ++ [LF]).
  rewrite span_app; [| |reflexivity].
  - destruct (Z.ltb_spec (Z.of_nat (length (ws ++ x :: msg)) + 1)
                         (Z.of_nat (length (x :: msg)) + 1)) as [Hlt|_].
    + rewrite length_app in Hlt. lia.
    + now rewrite Hvalid.
  - revert Hmsg. apply forallb_weaken. intros c Hc.
    apply andb_prop in Hc. tauto.
Qed.

(** C9, as the claim states it, fails: on the line "uppercase  hello" (two
    spaces) the reader returns the message "hello", while the text after the
    first space up to the newline is " hello". *)
Lemma get_line_message_differs_from_spec :
  tcp_client_get_line [lit "uppercase  hello" ++ [LF]] Untouched Untouched
  = LineResult 17 (Text (lit "uppercase")) (Text (lit "hello")) []
  /\ spec_message (lit "uppercase  hello" ++ [LF]) = Some (lit " hello")
  /\ lit "hello" <> lit " hello".
Proof. split; [reflexivity | split; [reflexivity | discriminate]]. Qed.

(** C9, amended.  The reader passes over every line that is empty, begins
    with a space, holds no space, or whose word before the first space is
    not one of the five actions, and returns for the next line made of an
    action, a space, optional white space and a non-empty text the pair of
    that action and of the text from its first non-white-space character to
    the end of the line, newline excluded; the return value is the length
    of that line and the file is left after it. *)
Theorem get_line_skips_then_returns
    (pre : list (list ascii)) (tok ws msg : list ascii)
    (fd : list (list ascii)) (a0 m0 : slot)
    (Hpre : Forall skipped pre)
    (Htok : In tok actions)
    (Hws : forallb isspace ws = true)
    (Hne : msg <> [])
    (Hhd : isspace (hd NUL msg) = false)
    (Hmsg : line_text msg = true) :
  tcp_client_get_line (pre ++ (tok ++ SP :: (ws ++ msg) ++ [LF]) :: fd) a0 m0
  = LineResult (Z.of_nat (length (tok ++ SP :: (ws ++ msg) ++ [LF])))
      (Text tok) (Text msg) fd.
Proof.
  revert a0 m0. induction Hpre as [|line pre Hline _ IH]; intros a0 m0.
  - now apply get_line_good.
  - cbn [app].
    destruct (get_line_skipped line
                (pre ++ (tok ++ SP :: (ws ++ msg) ++ [LF]) :: fd) a0 m0 Hline)
      as [a' [m' ->]].
    apply IH.
Qed.

Lemma get_line_skips_then_returns_witness :
  tcp_client_get_line
    ([[LF]; lit " indented" ++ [LF]; lit "nospace" ++ [LF];
      lit "UPPERCASE" ++ SP :: lit "hi" ++ [LF]]
     ++ (lit "reverse" ++ SP :: (lit "  " ++ lit "a b c") ++ [LF])
     :: [lit "x" ++ [LF]])
    Untouched Untouched
  = LineResult 16 (Text (lit "reverse")) (Text (lit "a b c")) [lit "x" ++ [LF]].
Proof.
  refine (get_line_skips_then_returns
            [[LF]; lit " indented" ++ [LF]; lit "nospace" ++ [LF];
             lit "UPPERCASE" ++ SP :: lit "hi" ++ [LF]]
            (lit "reverse") (lit "  ") (lit "a b c") [lit "x" ++ [LF]]
            Untouched Untouched _ _ _ _ _ _).
  - apply Forall_cons; [apply skipped_empty|].
    apply Forall_cons; [apply (skipped_leading_space (lit "indented" ++ [LF]))|].
    apply Forall_cons.
    { apply skipped_no_space. intros Hin. vm_compute in Hin.
      intuition discriminate. }
    apply Forall_cons; [|apply Forall_nil].
    apply (skipped_bad_action (lit "UPPERCASE") (lit "hi"));
      [discriminate | reflexivity | reflexivity | reflexivity].
  - vm_compute. tauto.
  - reflexivity.
  - discriminate.
  - reflexivity.
  - reflexivity.
Defined.

(** C10.  is_valid_action is true exactly when its argument, as a C string,
    is one of the five lower-case literals; an argument that becomes one of
    them only after lower-casing (such as "UPPERCASE") is refused, and a
    script line that starts with it is passed over by the reader. *)
Theorem is_valid_action_exact
    (action tail : list ascii) (fd : list (list ascii)) (a0 m0 : slot) :
  (is_valid_action action = true <-> In (cstr action) actions)
  /\ (In (map tolower action) actions -> ~ In action actions ->
      is_valid_action action = false
      /\ (no_nul tail = true ->
          exists m',
            tcp_client_get_line ((action ++ SP :: tail ++ [LF]) :: fd) a0 m0
            = tcp_client_get_line fd (Text action) m')).
Proof.
  split; [apply is_valid_action_iff|].
  intros Hlow Hnot.
  destruct (actions_are_words _ Hlow) as [Hne Hw].
  apply tolower_word in Hw.
  assert (Hne' : action <> []) by (intros ->; now apply Hne).
  assert (Hbad : is_valid_action action = false).
  { destruct (is_valid_action action) eqn:E; [|reflexivity].
    apply is_valid_action_iff in E.
    rewrite cstr_clean in E by now apply word_no_nul. contradiction. }
  split; [exact Hbad|].
  intros Htail. now apply get_line_bad_action.
Qed.

Lemma is_valid_action_exact_witness :
  is_valid_action (lit "UPPERCASE") = false
  /\ exists m',
       tcp_client_get_line
         ((lit "UPPERCASE" ++ SP :: lit "hello" ++ [LF])
          :: [lit "uppercase hello" ++ [LF]]) Untouched Untouched
       = tcp_client_get_line [lit "uppercase hello" ++ [LF]]
           (Text (lit "UPPERCASE")) m'.
Proof.
  destruct (is_valid_action_exact (lit "UPPERCASE") (lit "hello")
              [lit "uppercase hello" ++ [LF]] Untouched Untouched)
    as [_ Hcase].
  destruct Hcase as [Hbad Hskip].
  - vm_compute. tauto.
  - intros Hin. vm_compute in Hin. intuition discriminate.
  - split; [exact Hbad | apply Hskip; reflexivity].
Defined.

(** ** Decimal numbers *)

Lemma digit_char d :
  0 <= d < 10 ->
  isdigit (ascii_of_nat (Z.to_nat (48 + d))) = true
  /\ code (ascii_of_nat (Z.to_nat (48 + d))) - 48 = d.
Proof.
  intros Hd.
  assert (Hcases : d = 0 \/ d = 1 \/ d = 2 \/ d = 3 \/ d = 4 \/ d = 5
                   \/ d = 6 \/ d = 7 \/ d = 8 \/ d = 9) by lia.
  repeat (destruct Hcases as [->|Hcases]; [split; reflexivity|]).
  subst d. split; reflexivity.
Qed.

Lemma isdigit_plain c :
  isdigit c = true ->
  isspace c = false /\ Ascii.eqb c NUL = false /\ Ascii.eqb c SP = false
  /\ Ascii.eqb c "-"%char = false /\ Ascii.eqb c "+"%char = false.
Proof.
  destruct c as [[] [] [] [] [] [] [] []]; vm_compute; intros Hc;
    try discriminate Hc; repeat split.
Qed.

Lemma digits_of_all_digits fuel n acc :
  0 <= n -> forallb isdigit acc = true ->
  forallb isdigit (digits_of fuel n acc) = true.
Proof.
  revert n acc. induction fuel as [|fuel IH]; intros n acc Hn Hacc; simpl.
  - exact Hacc.
  - assert (Hd : forallb isdigit
                   (ascii_of_nat (Z.to_nat (48 + n mod 10)) :: acc) = true).
    { cbn [forallb]. rewrite Hacc.
      destruct (digit_char (n mod 10)) as [-> _];
        [apply Z.mod_pos_bound; lia | reflexivity]. }
    destruct (n / 10 =? 0); [exact Hd|].
    apply IH; [apply Z.div_pos; lia | exact Hd].
Qed.

Lemma digits_of_length fuel n acc (k : nat) :
  0 <= n < 10 ^ Z.of_nat (S k) ->
  (length (digits_of fuel n acc) <= length acc + S k)%nat.
Proof.
  revert n acc k. induction fuel as [|fuel IH]; intros n acc k Hn; simpl.
  - lia.
  - destruct (Z.eqb_spec (n / 10) 0) as [_|Hq]; [simpl; lia|].
    destruct k as [|k].
    + exfalso. apply Hq. apply Z.div_small. simpl in Hn. lia.
    + specialize (IH (n / 10)
                     (ascii_of_nat (Z.to_nat (48 + n mod 10)) :: acc) k).
      simpl length in IH.
      assert (Hq' : 0 <= n / 10 < 10 ^ Z.of_nat (S k)).
      { split; [apply Z.div_pos; lia|].
        apply Z.div_lt_upper_bound; [lia|].
        replace (Z.of_nat (S (S k))) with (Z.succ (Z.of_nat (S k))) in Hn by lia.
        rewrite Z.pow_succ_r in Hn by lia. lia. }
      specialize (IH Hq'). lia.
Qed.

Lemma digits_of_nonempty fuel n acc : digits_of (S fuel) n acc <> [].
Proof.
  revert n acc. induction fuel as [|fuel IH]; intros n acc; simpl.
  - destruct (n / 10 =? 0); discriminate.
  - destruct (n / 10 =? 0); [discriminate|]. apply IH.
Qed.

Lemma atoi_digits_shift s a :
  forallb isdigit s = true ->
  atoi_digits a s = a * 10 ^ Z.of_nat (length s) + atoi_digits 0 s.
Proof.
  revert a. induction s as [|c s IH]; intros a Hs.
  - simpl. lia.
  - simpl in Hs. apply andb_prop in Hs. destruct Hs as [Hc Hs].
    cbn [atoi_digits]. rewrite Hc.
    rewrite (IH (a * 10 + (code c - 48)) Hs), (IH (0 * 10 + (code c - 48)) Hs).
    replace (Z.of_nat (length (c :: s))) with (Z.succ (Z.of_nat (length s)))
      by (simpl; lia).
    rewrite Z.pow_succ_r by lia. ring.
Qed.

Lemma atoi_digits_of fuel n acc :
  0 <= n < 2 ^ Z.of_nat fuel -> forallb isdigit acc = true ->
  atoi_digits 0 (digits_of fuel n acc)
  = n * 10 ^ Z.of_nat (length acc) + atoi_digits 0 acc.
Proof.
  revert n acc. induction fuel as [|fuel IH]; intros n acc Hn Hacc.
  - simpl in *. replace n with 0 by lia. lia.
  - cbn [digits_of].
    set (d := ascii_of_nat (Z.to_nat (48 + n mod 10))).
    destruct (digit_char (n mod 10)) as [Hd Hv];
      [apply Z.mod_pos_bound; lia|]. fold d in Hd, Hv.
    assert (Hacc' : forallb isdigit (d :: acc) = true)
      by (cbn [forallb]; now rewrite Hd, Hacc).
    assert (Hcons : atoi_digits 0 (d :: acc)
                    = n mod 10 * 10 ^ Z.of_nat (length acc) + atoi_digits 0 acc).
    { cbn [atoi_digits]. rewrite Hd, Hv.
      rewrite atoi_digits_shift by assumption. ring. }
    pose proof (Z.div_mod n 10 ltac:(lia)) as Hdm.
    destruct (Z.eqb_spec (n / 10) 0) as [Hq|Hq].
    + rewrite Hcons. rewrite Hq in Hdm. replace (n mod 10) with n by lia.
      reflexivity.
    + rewrite IH; [| |exact Hacc'].
      * rewrite Hcons.
        replace (Z.of_nat (length (d :: acc)))
          with (Z.succ (Z.of_nat (length acc))) by (simpl; lia).
        rewrite Z.pow_succ_r by lia.
        rewrite Hdm at 3. ring.
      * split; [apply Z.div_pos; lia|].
        apply Z.div_lt_upper_bound; [lia|].
        replace (Z.of_nat (S fuel)) with (Z.succ (Z.of_nat fuel)) in Hn by lia.
        rewrite Z.pow_succ_r in Hn by lia. lia.
Qed.

Lemma print_int_fuel n :
  0 <= n -> n < 2 ^ Z.of_nat (S (Z.to_nat (Z.log2 n))).
Proof.
  intros Hn. pose proof (Z.log2_nonneg n) as Hl.
  replace (Z.of_nat (S (Z.to_nat (Z.log2 n)))) with (Z.succ (Z.log2 n)) by lia.
  destruct (Z.eq_dec n 0) as [->|Hnz]; [reflexivity|].
  apply Z.log2_spec. lia.
Qed.

Lemma print_int_digits n :
  0 <= n ->
  print_int n = digits_of (S (Z.to_nat (Z.log2 n))) n [].
Proof.
  intros Hn. unfold print_int.
  destruct (Z.ltb_spec n 0); [lia | reflexivity].
Qed.

Lemma print_int_all_digits n : 0 <= n -> forallb isdigit (print_int n) = true.
Proof.
  intros Hn. rewrite print_int_digits by assumption.
  now apply digits_of_all_digits.
Qed.

Lemma print_int_nonempty n : 0 <= n -> print_int n <> [].
Proof.
  intros Hn. rewrite print_int_digits by assumption. apply digits_of_nonempty.
Qed.

Lemma print_int_length n (k : nat) :
  0 <= n < 10 ^ Z.of_nat (S k) -> (length (print_int n) <= S k)%nat.
Proof.
  intros Hn. rewrite print_int_digits by lia.
  apply (digits_of_length _ n [] k Hn).
Qed.

Lemma digits_no_nul s : forallb isdigit s = true -> no_nul s = true.
Proof.
  apply forallb_weaken. intros c Hc.
  destruct (isdigit_plain c Hc) as [_ [-> _]]. reflexivity.
Qed.

Lemma digits_no_space s :
  forallb isdigit s = true ->
  forallb (fun c => negb (Ascii.eqb c SP) && negb (Ascii.eqb c NUL)) s = true.
Proof.
  apply forallb_weaken. intros c Hc.
  destruct (isdigit_plain c Hc) as [_ [-> [-> _]]]. reflexivity.
Qed.

(** What printf writes for a length, atoi reads back. *)
Lemma atoi_print_int n : 0 <= n -> atoi (print_int n) = n.
Proof.
  intros Hn. pose proof (print_int_all_digits n Hn) as Hd.
  unfold atoi. rewrite cstr_clean by now apply digits_no_nul.
  assert (Hv : atoi_digits 0 (print_int n) = n).
  { rewrite print_int_digits by assumption.
    rewrite atoi_digits_of; [simpl; lia | | reflexivity].
    split; [assumption | now apply print_int_fuel]. }
  destruct (print_int n) as [|c s] eqn:E.
  - now apply print_int_nonempty in E.
  - simpl in Hd. apply andb_prop in Hd. destruct Hd as [Hc _].
    destruct (isdigit_plain c Hc) as [Hsp [_ [_ [Hm Hp]]]].
    simpl. rewrite Hsp, Hm, Hp. exact Hv.
Qed.

(** ** Decoding one frame *)

Lemma firstn_exact {A} (s t : list A) : firstn (length s) (s ++ t) = s.
Proof.
  rewrite firstn_app, Nat.sub_diag, firstn_all. simpl. apply app_nil_r.
Qed.

Lemma frame_length p :
  Z.of_nat (length (frame p))
  = Z.of_nat (length (print_int (Z.of_nat (length p)))) + 1
    + Z.of_nat (length p).
Proof. unfold frame. rewrite length_app. simpl. lia. Qed.

(** A buffer that starts with a decimal length, a space and a payload of
    that length, and counts at least that many bytes, decodes to the
    payload. *)
Lemma parse_frame_at ds p tail size total :
  ds <> [] -> forallb isdigit ds = true -> (length ds < 10)%nat ->
  atoi ds = Z.of_nat (length p) ->
  no_nul p = true ->
  Z.of_nat (length ds) + 1 + Z.of_nat (length p) <= size ->
  Z.of_nat (length p) <= total ->
  parse_frame (mkReassembly (ds ++ SP :: p ++ tail) size total)
  = Complete p (Z.of_nat (length ds) + Z.of_nat (length p) + 1).
Proof.
  intros Hne Hd Hk Hval Hp Hsize Htotal.
  unfold parse_frame. cbn [buffer buffer_size total_bytes_received].
  rewrite strchr_app by now apply digits_no_space.
  assert (Hc : isdigit (nth 0 (ds ++ SP :: p ++ tail) NUL) = true).
  { destruct ds as [|c ds]; [contradiction|]. simpl in *.
    apply andb_prop in Hd. tauto. }
  rewrite Hc. cbn [negb]. unfold CHAR_MESSAGE_LENGTH_SIZE.
  rewrite firstn_exact, Hval, skipn_past, Nat2Z.id, firstn_exact.
  repeat match goal with
         | |- context [?a <=? ?b] => destruct (Z.leb_spec a b); [lia|]
         | |- context [?a >? ?b] => destruct (Z.gtb_spec a b); [lia|]
         | |- context [?a <? ?b] => destruct (Z.ltb_spec a b); [lia|]
         end.
  rewrite cstr_clean by assumption.
  rewrite strlen_clean by now apply digits_no_nul.
  reflexivity.
Qed.

Lemma parse_frame_complete p tail total :
  no_nul p = true ->
  Z.of_nat (length p) < 10 ^ 9 ->
  Z.of_nat (length p) <= total ->
  parse_frame (mkReassembly (frame p ++ tail)
                 (Z.of_nat (length (frame p ++ tail))) total)
  = Complete p (Z.of_nat (length (frame p))).
Proof.
  intros Hp Hlen Htotal.
  assert (Hn : 0 <= Z.of_nat (length p)) by lia.
  pose proof (print_int_length (Z.of_nat (length p)) 8 ltac:(simpl; lia)) as Hk.
  rewrite length_app, frame_length.
  unfold frame. rewrite <- app_assoc. cbn [app].
  rewrite parse_frame_at;
    auto using print_int_nonempty, print_int_all_digits, atoi_print_int;
    try lia.
  - f_equal. lia.
  - rewrite length_app. cbn [length]. lia.
Qed.

(** A buffer whose first byte is no digit never decodes. *)
Lemma parse_frame_no_digit r :
  isdigit (nth 0 (buffer r) NUL) = false ->
  parse_frame r = NoPrefix \/ parse_frame r = ParseFault.
Proof.
  intros Hc. unfold parse_frame. rewrite Hc.
  destruct (strchr (buffer r) SP); auto.
Qed.

Lemma int_of_small z : 0 <= z < 2147483648 -> int_of z = z.
Proof.
  intros Hz. unfold int_of. rewrite Z.mod_small by lia. lia.
Qed.

Lemma action_length action : In action actions -> (length action <= 9)%nat.
Proof.
  intros Hin. simpl in Hin.
  destruct Hin as [<-|[<-|[<-|[<-|[<-|[]]]]]]; simpl; lia.
Qed.

Lemma action_starts_with_letter action :
  In action actions -> isdigit (nth 0 action NUL) = false.
Proof.
  intros Hin. simpl in Hin.
  destruct Hin as [<-|[<-|[<-|[<-|[<-|[]]]]]]; reflexivity.
Qed.

(** C4, as the claim states it, fails: the only decoder of the repository
    is the receive loop, and fed the encoded request "uppercase 5 hello" it
    hands nothing to the callback, neither the action nor the message. *)
Lemma receive_does_not_decode_request :
  tcp_client_send_request [SendTakes 17] (lit "uppercase") (lit "hello")
  = (Returned EXIT_SUCCESS, lit "uppercase 5 hello")
  /\ handled (tcp_client_receive_response zeroed unit keep_going
                [RecvBytes (lit "uppercase 5 hello"); peer_closed] tt) = []
  /\ handled (tcp_client_receive_response zeroed nat count_down
                [RecvBytes (lit "uppercase 5 hello"); peer_closed] 1%nat) = [].
Proof. split; [reflexivity | split; vm_compute; reflexivity]. Qed.

(** C4, amended.  For a valid action A and a message M without NUL of fewer
    than 10^7 bytes, the encoder writes A, one space and the frame
    "<len(M)> <M>"; the receive decoder finds no frame at the start of the
    encoded request (the action word is no length), and applied to the part
    after "A " it yields exactly M and consumes exactly that frame. *)
Theorem request_holds_decodable_frame
    (action message tail : list ascii) (total : Z)
    (Haction : In action actions)
    (Hmessage : no_nul message = true)
    (Hlen : Z.of_nat (length message) < 10 ^ 7)
    (Htotal : Z.of_nat (length message) <= total) :
  format_request action message = Some (action ++ SP :: frame message)
  /\ parse_frame
       (mkReassembly ((action ++ SP :: frame message) ++ tail)
          (Z.of_nat (length ((action ++ SP :: frame message) ++ tail))) total)
     = NoPrefix
  /\ parse_frame
       (mkReassembly (frame message ++ tail)
          (Z.of_nat (length (frame message ++ tail))) total)
     = Complete message (Z.of_nat (length (frame message))).
Proof.
  destruct (actions_are_words action Haction) as [Hne Hw].
  pose proof (action_length action Haction) as Hla.
  pose proof (print_int_length (Z.of_nat (length message)) 6
                ltac:(simpl; lia)) as Hk.
  split; [|split].
  - unfold format_request.
    rewrite (strlen_clean action) by now apply word_no_nul.
    rewrite (strlen_clean message) by assumption.
    rewrite (cstr_clean action) by now apply word_no_nul.
    rewrite (cstr_clean message) by assumption.
    unfold PAYLOAD_MEMORY_BUFFER. rewrite !int_of_small by lia.
    fold (frame message).
    pose proof (frame_length message) as Hfl.
    rewrite length_app. cbn [length].
    destruct (Z.leb_spec 0 (Z.of_nat (length action)
                            + Z.of_nat (length message) + 10)); [|lia].
    cbn [andb].
    match goal with
    | |- context [?a <=? ?b] => destruct (Z.leb_spec a b); [reflexivity | lia]
    end.
  - unfold parse_frame. cbn [buffer].
    rewrite <- app_assoc. cbn [app].
    rewrite strchr_app by now apply word_no_space.
    replace (nth 0 (action ++ SP :: frame message ++ tail) NUL)
      with (nth 0 action NUL)
      by (destruct action; [contradiction | reflexivity]).
    now rewrite action_starts_with_letter.
  - apply parse_frame_complete; [assumption | lia | assumption].
Qed.

Lemma request_holds_decodable_frame_witness :
  format_request (lit "uppercase") (lit "hello there")
  = Some (lit "uppercase 11 hello there")
  /\ parse_frame (mkReassembly (lit "uppercase 11 hello there" ++ lit "3 abc")
                    29 29) = NoPrefix
  /\ parse_frame (mkReassembly (lit "11 hello there" ++ lit "3 abc") 19 19)
     = Complete (lit "hello there") 14.
Proof.
  refine (request_holds_decodable_frame (lit "uppercase") (lit "hello there")
            (lit "3 abc") 19 _ _ _ _).
  - vm_compute. tauto.
  - reflexivity.
  - reflexivity.
  - vm_compute. discriminate.
Defined.

(** ** Receiving: departures from the intended reassembly *)

(** C2 (the code departs from the claim).  With a zero-filled buffer, the
    four bytes "3 ab" in one read and "c" in the next, the loop compares the
    count of all buffered bytes (4) with the declared length (3), takes the
    frame for complete and gives the callback the short message "ab"; the
    message "abc" is never delivered. *)
Theorem receive_short_frame_delivered_early :
  parse_frame (mkReassembly (lit "3 ab" ++ repeat NUL 1020) 1024 4)
  = Complete (lit "ab") 5
  /\ handled (tcp_client_receive_response zeroed unit keep_going
                [RecvBytes (lit "3 ab"); RecvBytes (lit "c"); peer_closed] tt)
     = [lit "ab"].
Proof. split; vm_compute; reflexivity. Qed.

(** C7 (the code departs from the claim).  After the read "ab cd" was
    discarded, the read "1" leaves a valid region that holds no space, yet
    strchr finds the stale space behind it: the count is not reset and the
    callback is given the stale byte "c". *)
Theorem receive_stale_space_not_reset :
  parse_frame (mkReassembly (lit "1b cd" ++ repeat NUL 1019) 1024 1)
  = Complete (lit "c") 4
  /\ handled (tcp_client_receive_response zeroed unit keep_going
                [RecvBytes (lit "ab cd"); RecvBytes (lit "1"); peer_closed] tt)
     = [lit "c"].
Proof. split; vm_compute; reflexivity. Qed.

(** ** Range of a declared length *)

Lemma atoi_digits_bound s a :
  0 <= a -> a <= atoi_digits a s < (a + 1) * 10 ^ Z.of_nat (length s).
Proof.
  revert a. induction s as [|c s IH]; intros a Ha.
  - simpl. lia.
  - cbn [atoi_digits].
    replace (Z.of_nat (length (c :: s))) with (Z.succ (Z.of_nat (length s)))
      by (simpl; lia).
    rewrite Z.pow_succ_r by lia.
    assert (Hpow : 0 < 10 ^ Z.of_nat (length s)) by (apply Z.pow_pos_nonneg; lia).
    destruct (isdigit c) eqn:Hc; [|nia].
    unfold isdigit in Hc. apply andb_prop in Hc. destruct Hc as [Hlo Hhi].
    apply Z.leb_le in Hlo, Hhi.
    specialize (IH (a * 10 + (code c - 48)) ltac:(lia)). nia.
Qed.

Lemma cstr_length s : (length (cstr s) <= length s)%nat.
Proof.
  induction s as [|c s IH]; simpl; [lia|].
  destruct (Ascii.eqb c NUL); simpl; lia.
Qed.




(** ** The fuel of the model never runs out *)

(** A decoded frame takes at least two bytes off a count that was not
    negative. *)
Lemma parse_frame_progress r message bytes_read :
  parse_frame r = Complete message bytes_read ->
  0 <= total_bytes_received r /\ 2 <= bytes_read.
Proof.
  unfold parse_frame.
  destruct (strchr (buffer r) SP) as [i| |] eqn:Hsp; try discriminate.
  destruct (isdigit (nth 0 (buffer r) NUL)) eqn:Hdig; [|discriminate].
  cbn [negb].
  destruct (CHAR_MESSAGE_LENGTH_SIZE <=? Z.of_nat i); [discriminate|].
  destruct (atoi (firstn i (buffer r)) >? buffer_size r - Z.of_nat i - 1);
    [discriminate|].
  destruct (Z.ltb_spec (total_bytes_received r) (atoi (firstn i (buffer r))))
    as [|Hge]; [discriminate|].
  intros Heq. injection Heq as _ <-.
  destruct (buffer r) as [|c mem]; [discriminate Hsp|].
  cbn [nth] in Hdig.
  destruct (isdigit_plain c Hdig) as [Hspace [Hnul [Hsp' [Hm Hp]]]].
  destruct i as [|i]; [simpl in Hsp; rewrite Hsp', Hnul in Hsp;
                       destruct (strchr mem SP); discriminate|].
  assert (Hval : 0 <= atoi (firstn (S i) (c :: mem))).
  { unfold atoi. cbn [firstn cstr]. rewrite Hnul. cbn [skip_space].
    rewrite Hspace, Hm, Hp.
    apply (atoi_digits_bound (c :: cstr (firstn i mem)) 0). lia. }
  assert (Hlen : 1 <= strlen (firstn (S i) (c :: mem))).
  { unfold strlen. cbn [firstn cstr]. rewrite Hnul. simpl length. lia. }
  lia.
Qed.

Section Totality.

Variable uninitialised : nat -> ascii.
Variable H : Type.
Variable handle_response : H -> list ascii -> H * bool.

Lemma decode_loop_total fuel r h log :
  (if total_bytes_received r <? 0 then 1
   else total_bytes_received r / 2 + 2) <= Z.of_nat fuel ->
  decode_loop uninitialised H handle_response fuel r h log <> DecodeOutOfFuel.
Proof.
  revert r h log. induction fuel as [|fuel IH]; intros r h log Hfuel.
  - destruct (Z.ltb_spec (total_bytes_received r) 0); [lia|].
    pose proof (Z.div_pos (total_bytes_received r) 2). lia.
  - cbn [decode_loop].
    destruct (parse_frame r) as [| | |message bytes_read|] eqn:Hp;
      try discriminate.
    + destruct (buffer_size r * 2 >? INT_MAX); discriminate.
    + destruct (handle_response h message) as [h' done].
      destruct done; [discriminate|].
      apply IH. destruct (parse_frame_progress _ _ _ Hp) as [Htot Hbr].
      unfold shift. cbn [total_bytes_received].
      destruct (Z.ltb_spec (total_bytes_received r) 0); [lia|].
      destruct (Z.ltb_spec (total_bytes_received r - bytes_read) 0).
      * pose proof (Z.div_pos (total_bytes_received r) 2). lia.
      * assert ((total_bytes_received r - bytes_read) / 2
                <= (total_bytes_received r - 2) / 2)
          by (apply Z.div_le_mono; lia).
        replace (total_bytes_received r - 2)
          with (total_bytes_received r + (-1) * 2) in * by lia.
        rewrite Z.div_add in * by lia. lia.
Qed.

Lemma recv_takes conn mem offset len n mem' conn' :
  recv conn mem offset len = Received n mem' conn' -> n <> 0 ->
  0 <= offset /\ 1 <= n /\ (pending conn' < pending conn)%nat.
Proof.
  unfold recv.
  destruct conn as [|[data|] rest]; try discriminate.
  destruct data as [|x data].
  - intros Heq Hn. injection Heq as <- _ _. contradiction.
  - set (d := x :: data).
    destruct (Z.eqb_spec len 0);
      [intros Heq Hn; injection Heq as <- _ _; contradiction|].
    set (k := if len <? 0 then Z.of_nat (length d)
              else Z.min (Z.of_nat (length d)) len).
    assert (Hk : 1 <= k <= Z.of_nat (length d)).
    { unfold k. assert (1 <= Z.of_nat (length d)) by (unfold d; simpl; lia).
      destruct (Z.ltb_spec len 0); lia. }
    destruct (Z.ltb_spec offset 0); [discriminate|]. cbn [orb].
    destruct (Z.of_nat (length mem) <? offset + k); [discriminate|].
    pose proof (length_skipn (Z.to_nat k) d) as Hleft.
    destruct (skipn (Z.to_nat k) d) as [|y unread];
      intros Heq Hn; injection Heq as <- _ <-.
    + repeat split; try lia. cbn [pending]. lia.
    + repeat split; try lia.
      unfold d in *. cbn [pending length] in *. lia.
Qed.

Lemma receive_loop_total fuel conn r h log :
  (pending conn < fuel)%nat ->
  ended (receive_loop uninitialised H handle_response fuel conn r h log)
  <> OutOfFuel.
Proof.
  revert conn r h log. induction fuel as [|fuel IH]; intros conn r h log Hfuel;
    [lia|].
  cbn [receive_loop]. unfold iteration. cbv zeta.
  destruct (recv conn (buffer r) (total_bytes_received r)
              (buffer_size r - total_bytes_received r))
    as [n mem conn'| | |] eqn:Hrecv; cbn [ended]; try discriminate.
  destruct (Z.eqb_spec n 0); cbn [ended]; [discriminate|].
  destruct (recv_takes _ _ _ _ _ _ _ Hrecv ltac:(assumption))
    as [Hoff [Hn Hless]].
  cbn [total_bytes_received].
  pose proof (decode_loop_total
                (S (Z.to_nat (total_bytes_received r + n)))
                (mkReassembly mem (buffer_size r) (total_bytes_received r + n))
                h log) as Hdec.
  cbn [total_bytes_received] in Hdec.
  destruct (decode_loop uninitialised H handle_response
              (S (Z.to_nat (total_bytes_received r + n)))
              (mkReassembly mem (buffer_size r) (total_bytes_received r + n))
              h log) as [r2 h2 log2|r2 h2 log2|r2 h2 log2|];
    cbn [ended]; try discriminate.
  - apply IH. lia.
  - exfalso. apply Hdec; [|reflexivity].
    destruct (Z.ltb_spec (total_bytes_received r + n) 0); [lia|].
    assert ((total_bytes_received r + n) / 2 < total_bytes_received r + n)
      by (apply Z.div_lt; lia).
    lia.
Qed.

(** The model of the whole function always ends by a return, an exit, a
    fault or a connection that delivers nothing more. *)
Lemma tcp_client_receive_response_total conn h :
  ended (tcp_client_receive_response uninitialised H handle_response conn h)
  <> OutOfFuel.
Proof.
  unfold tcp_client_receive_response. apply receive_loop_total. lia.
Qed.

End Totality.

(** ** The capacity of the buffer *)

Section Capacity.

Variable uninitialised : nat -> ascii.
Variable H : Type.
Variable handle_response : H -> list ascii -> H * bool.





End Capacity.





(** ** Reassembly of reads that end at frame boundaries *)




Lemma frame_length_pos p : (2 <= length (frame p))%nat.
Proof.
  unfold frame. rewrite length_app. simpl.
  pose proof (print_int_nonempty (Z.of_nat (length p)) ltac:(lia)) as Hne.
  destruct (print_int (Z.of_nat (length p))); [contradiction | simpl; lia].
Qed.



Section Reassembly.

Variable uninitialised : nat -> ascii.
Variable H : Type.
Variable handle_response : H -> list ascii -> H * bool.







End Reassembly.






(** ** Scenarios of the specification, run on the model *)

Example print_int_5000 : print_int 5000 = lit "5000".
Proof. reflexivity. Qed.
Example print_int_0 : print_int 0 = lit "0".
Proof. reflexivity. Qed.
Example atoi_12ab : atoi (lit "12ab") = 12.
Proof. reflexivity. Qed.

Example send_hello_all_at_once :
  tcp_client_send_request [SendTakes 100] (lit "uppercase") (lit "hello")
  = (Returned EXIT_SUCCESS, lit "uppercase 5 hello").
Proof. reflexivity. Qed.

Example receive_hello :
  let res := tcp_client_receive_response zeroed unit keep_going
               [RecvBytes (lit "5 HELLO"); peer_closed] tt in
  ended res = Returned EXIT_SUCCESS /\ handled res = [lit "HELLO"].
Proof. vm_compute. split; reflexivity. Qed.

(** A frame of 5000 bytes is decoded after the buffer has doubled three
    times. *)
Example receive_after_growth :
  let res := tcp_client_receive_response zeroed unit keep_going
               [RecvBytes (frames [repeat "x"%char 5000]); peer_closed] tt in
  ended res = Returned EXIT_SUCCESS
  /\ handled res = [repeat "x"%char 5000]
  /\ buffer_size (locals res) = 8192.
Proof. vm_compute. repeat split; reflexivity. Qed.

(** The frame of the empty message is handed to the callback. *)
Example receive_empty_message :
  handled (tcp_client_receive_response zeroed unit keep_going
             [RecvBytes (lit "0 "); peer_closed] tt) = [[]].
Proof. vm_compute. reflexivity. Qed.

(** * Further properties of the code *)

(** ** The request and its transmission *)

Lemma int_of_range z : -2147483648 <= int_of z < 2147483648.
Proof.
  unfold int_of.
  pose proof (Z.mod_pos_bound (z + 2147483648) 4294967296 ltac:(lia)). lia.
Qed.

Lemma no_nul_cstr s : no_nul (cstr s) = true.
Proof.
  induction s as [|c s IH]; simpl; [reflexivity|].
  destruct (Ascii.eqb c NUL) eqn:E; simpl; [reflexivity|].
  now rewrite E.
Qed.

Lemma no_nul_print_int n : no_nul (print_int n) = true.
Proof.
  unfold print_int. destruct (Z.ltb_spec n 0).
  - cbn [no_nul forallb]. apply andb_true_intro. split; [reflexivity|].
    apply digits_no_nul, digits_of_all_digits; [lia | reflexivity].
  - apply digits_no_nul, digits_of_all_digits; [lia | reflexivity].
Qed.

(** A request that fits its allocation holds no NUL and its length is an
    int. *)
Lemma format_request_length action message request :
  format_request action message = Some request ->
  int_of (strlen request) = Z.of_nat (length request)
  /\ (2 <= length request)%nat.
Proof.
  unfold format_request.
  set (req := cstr action ++ SP :: print_int (int_of (strlen message))
                ++ SP :: cstr message).
  set (pl := int_of (strlen action + strlen message + PAYLOAD_MEMORY_BUFFER)).
  pose proof (int_of_range (strlen action + strlen message
                            + PAYLOAD_MEMORY_BUFFER)) as Hpl. fold pl in Hpl.
  destruct (Z.leb_spec 0 pl); [|discriminate]. cbn [andb].
  destruct (Z.leb_spec (Z.of_nat (length req) + 1) pl); [|discriminate].
  intros Heq. injection Heq as <-.
  assert (Hnn : no_nul req = true).
  { unfold req. rewrite no_nul_app, no_nul_cstr. cbn [andb no_nul forallb].
    fold (no_nul (print_int (int_of (strlen message)) ++ SP :: cstr message)).
    rewrite no_nul_app, no_nul_print_int. cbn [andb no_nul forallb].
    apply (no_nul_cstr message). }
  rewrite strlen_clean by assumption.
  split; [apply int_of_small; lia|].
  unfold req. rewrite length_app. cbn [length]. rewrite length_app.
  cbn [length]. lia.
Qed.

Lemma send_loop_prefixes sched request request_length :
  request_length <= Z.of_nat (length request) ->
  forall total wire wire',
    0 <= total <= request_length ->
    send_loop sched request request_length total wire
    = (Returned EXIT_SUCCESS, wire') ->
    exists ks,
      wire' = wire ++ concat (map (fun k => firstn k request) ks)
      /\ total + Z.of_nat (length (concat (map (fun k => firstn k request) ks)))
         = request_length.
Proof.
  intros Hrl. induction sched as [|ev sched IH]; intros total wire wire' Ht.
  - cbn [send_loop]. destruct (Z.ltb_spec total request_length);
      [discriminate|]. intros Heq. injection Heq as <-.
    exists []. cbn [map concat length]. rewrite app_nil_r. split; [reflexivity|lia].
  - cbn [send_loop]. destruct (Z.ltb_spec total request_length).
    + destruct ev as [k|]; [|discriminate].
      set (n := Z.min (Z.of_nat k) (request_length - total)).
      intros Hrun. apply IH in Hrun; [|unfold n; lia].
      destruct Hrun as [ks [Hw Hsum]].
      exists (Z.to_nat n :: ks). cbn [map concat].
      rewrite Hw, <- app_assoc. split; [reflexivity|].
      rewrite length_app, length_firstn. unfold n in *. lia.
    + intros Heq. injection Heq as <-.
      exists []. cbn [map concat length]. rewrite app_nil_r.
      split; [reflexivity|lia].
Qed.

(** X1.  Whenever tcp_client_send_request returns, it returns success, the
    number of bytes put on the connection is the length of the request, and
    every write carried a prefix of the request: the bytes on the wire are
    a concatenation of prefixes. *)
Theorem send_request_sends_prefixes
    (sched : list send_event) (action message request wire : list ascii)
    (rc : Z)
    (Hfits : format_request action message = Some request)
    (Hrun : tcp_client_send_request sched action message = (Returned rc, wire)) :
  rc = EXIT_SUCCESS
  /\ length wire = length request
  /\ exists ks, wire = concat (map (fun k => firstn k request) ks).
Proof.
  unfold tcp_client_send_request in Hrun. rewrite Hfits in Hrun.
  destruct (format_request_length _ _ _ Hfits) as [Hlen _].
  rewrite Hlen in Hrun.
  assert (Hrc : rc = EXIT_SUCCESS).
  { destruct (Z.eq_dec rc EXIT_SUCCESS) as [|Hne]; [assumption|].
    revert Hrun. generalize (@nil ascii) at 1. generalize 0.
    induction sched as [|ev sched IH]; intros total w; cbn [send_loop];
      destruct (total <? Z.of_nat (length request)); try discriminate;
      try (intros Heq; injection Heq as <- _; contradiction).
    destruct ev; [apply IH | discriminate]. }
  subst rc. split; [reflexivity|].
  destruct (send_loop_prefixes sched request (Z.of_nat (length request))
              ltac:(lia) 0 [] wire ltac:(lia) Hrun) as [ks [Hw Hsum]].
  cbn [app] in Hw. split; [rewrite Hw; lia | eauto].
Qed.

Lemma send_request_sends_prefixes_witness :
  EXIT_SUCCESS = EXIT_SUCCESS
  /\ length (lit "uppercaseuppercas") = length (lit "uppercase 5 hello")
  /\ exists ks,
       lit "uppercaseuppercas"
       = concat (map (fun k => firstn k (lit "uppercase 5 hello")) ks).
Proof.
  refine (send_request_sends_prefixes [SendTakes 9; SendTakes 8]
            (lit "uppercase") (lit "hello") (lit "uppercase 5 hello")
            (lit "uppercaseuppercas") EXIT_SUCCESS _ _);
    reflexivity.
Defined.

(** X2.  When the first write takes the whole request, the bytes on the
    connection are exactly the request "<action> <length> <message>" and
    the function returns success without another call of send. *)
Theorem send_request_single_write
    (k : nat) (sched : list send_event) (action message request : list ascii)
    (Hfits : format_request action message = Some request)
    (Hall : (length request <= k)%nat) :
  tcp_client_send_request (SendTakes k :: sched) action message
  = (Returned EXIT_SUCCESS, request).
Proof.
  unfold tcp_client_send_request. rewrite Hfits.
  destruct (format_request_length _ _ _ Hfits) as [-> Hpos].
  cbn [send_loop].
  destruct (Z.ltb_spec 0 (Z.of_nat (length request))); [|lia].
  rewrite Z.sub_0_r, Z.min_r, Nat2Z.id, firstn_all by lia.
  cbn [app Z.add].
  destruct sched as [|ev sched]; cbn [send_loop];
    now rewrite Z.ltb_irrefl.
Qed.

Lemma send_request_single_write_witness :
  tcp_client_send_request [SendTakes 64; SendError] (lit "reverse") (lit "a b")
  = (Returned EXIT_SUCCESS, lit "reverse 3 a b").
Proof.
  refine (send_request_single_write 64 [SendError] (lit "reverse") (lit "a b")
            (lit "reverse 3 a b") _ _).
  - reflexivity.
  - vm_compute. lia.
Defined.

Lemma digits_of_length_lower fuel n acc (k : nat) :
  10 ^ Z.of_nat k <= n < 2 ^ Z.of_nat fuel ->
  (length acc + S k <= length (digits_of fuel n acc))%nat.
Proof.
  revert n acc k. induction fuel as [|fuel IH]; intros n acc k Hn.
  - assert (0 < 10 ^ Z.of_nat k) by (apply Z.pow_pos_nonneg; lia).
    simpl in Hn. lia.
  - cbn [digits_of].
    assert (Hpos : 0 < 10 ^ Z.of_nat k) by (apply Z.pow_pos_nonneg; lia).
    destruct (Z.eqb_spec (n / 10) 0) as [Hq|Hq].
    + destruct k as [|k]; [simpl; lia|]. exfalso.
      replace (Z.of_nat (S k)) with (Z.succ (Z.of_nat k)) in Hn by lia.
      rewrite Z.pow_succ_r in Hn by lia.
      assert (0 < 10 ^ Z.of_nat k) by (apply Z.pow_pos_nonneg; lia).
      assert (n < 10) by (apply Z.div_small_iff in Hq; lia). lia.
    + assert (Hfuel : n / 10 < 2 ^ Z.of_nat fuel).
      { apply Z.div_lt_upper_bound; [lia|].
        replace (Z.of_nat (S fuel)) with (Z.succ (Z.of_nat fuel)) in Hn by lia.
        rewrite Z.pow_succ_r in Hn by lia. lia. }
      destruct k as [|k].
      * specialize (IH (n / 10)
                       (ascii_of_nat (Z.to_nat (48 + n mod 10)) :: acc) 0%nat).
        cbn [length] in IH.
        assert (1 <= n / 10) by (pose proof (Z.div_pos n 10); lia).
        specialize (IH ltac:(simpl; lia)). lia.
      * specialize (IH (n / 10)
                       (ascii_of_nat (Z.to_nat (48 + n mod 10)) :: acc) k).
        cbn [length] in IH.
        assert (10 ^ Z.of_nat k <= n / 10).
        { apply Z.div_le_lower_bound; [lia|].
          replace (Z.of_nat (S k)) with (Z.succ (Z.of_nat k)) in Hn by lia.
          rewrite Z.pow_succ_r in Hn by lia. lia. }
        specialize (IH ltac:(lia)). lia.
Qed.

Lemma print_int_length_lower n (k : nat) :
  10 ^ Z.of_nat k <= n -> (S k <= length (print_int n))%nat.
Proof.
  intros Hn.
  assert (0 < 10 ^ Z.of_nat k) by (apply Z.pow_pos_nonneg; lia).
  rewrite print_int_digits by lia.
  apply (digits_of_length_lower _ n [] k).
  split; [assumption | apply print_int_fuel; lia].
Qed.

Lemma cstr_repeat c n : c <> NUL -> cstr (repeat c n) = repeat c n.
Proof.
  intros Hc. induction n as [|n IH]; simpl; [reflexivity|].
  destruct (Ascii.eqb_spec c NUL); [contradiction|]. now rewrite IH.
Qed.

(** X3.  A message of 10^7 bytes or more does not fit the allocation of
    strlen(action) + strlen(message) + 10 bytes: its length takes eight
    digits or more, so the characters sprintf stores, terminator included,
    are more than the bytes allocated. *)
Theorem send_request_overflows_allocation
    (action message : list ascii)
    (Hlong : 10 ^ 7 <= strlen message)
    (Hint : strlen action + strlen message + PAYLOAD_MEMORY_BUFFER <= INT_MAX) :
  format_request action message = None
  /\ (8 <= length (print_int (strlen message)))%nat
  /\ Z.of_nat (length (cstr action ++ SP :: print_int (strlen message)
                       ++ SP :: cstr message)) + 1
     > strlen action + strlen message + PAYLOAD_MEMORY_BUFFER.
Proof.
  pose proof (print_int_length_lower (strlen message) 7 Hlong) as Hd.
  assert (Ha : 0 <= strlen action) by (unfold strlen; lia).
  assert (Hover :
    Z.of_nat (length (cstr action ++ SP :: print_int (strlen message)
                      ++ SP :: cstr message)) + 1
    > strlen action + strlen message + PAYLOAD_MEMORY_BUFFER).
  { rewrite length_app. cbn [length]. rewrite length_app. cbn [length].
    unfold PAYLOAD_MEMORY_BUFFER, strlen in *. lia. }
  split; [|split; assumption].
  unfold format_request.
  unfold PAYLOAD_MEMORY_BUFFER, INT_MAX in *.
  rewrite !int_of_small by lia.
  destruct (Z.leb_spec 0 (strlen action + strlen message + 10)); [|lia].
  cbn [andb].
  match goal with
  | |- context [?a <=? ?b] => destruct (Z.leb_spec a b); [lia | reflexivity]
  end.
Qed.

Lemma send_request_overflows_allocation_witness :
  format_request (lit "reverse") (repeat "x"%char (Z.to_nat 10000000)) = None.
Proof.
  apply (send_request_overflows_allocation (lit "reverse")
           (repeat "x"%char (Z.to_nat 10000000))).
  - unfold strlen. rewrite cstr_repeat, repeat_length by discriminate. lia.
  - unfold strlen. rewrite cstr_repeat, repeat_length by discriminate.
    change (Z.of_nat (length (cstr (lit "reverse")))) with 7.
    unfold PAYLOAD_MEMORY_BUFFER, INT_MAX. lia.
Defined.

(** ** The receive loop: errors, termination, bookkeeping *)

Section ReceiveLoop.

Variable uninitialised : nat -> ascii.
Variable H : Type.
Variable handle_response : H -> list ascii -> H * bool.

Lemma receive_loop_returns_success fuel conn r h log rc :
  ended (receive_loop uninitialised H handle_response fuel conn r h log)
  = Returned rc ->
  rc = EXIT_SUCCESS.
Proof.
  revert conn r h log. induction fuel as [|fuel IH]; intros conn r h log;
    [discriminate|].
  cbn [receive_loop]. unfold iteration. cbv zeta.
  destruct (recv conn (buffer r) (total_bytes_received r)
              (buffer_size r - total_bytes_received r))
    as [n mem conn'| | |]; cbn [ended]; try discriminate.
  destruct (n =? 0); cbn [ended]; [intros Heq; now injection Heq|].
  destruct (decode_loop uninitialised H handle_response _ _ h log);
    cbn [ended]; try discriminate.
  - apply IH.
  - intros Heq. now injection Heq.
Qed.

(** The messages given to the callback are only ever added to. *)
Lemma decode_loop_extends fuel r h log :
  match decode_loop uninitialised H handle_response fuel r h log with
  | Break _ _ l | AllDone _ _ l | DecodeFault _ _ l =>
      exists more, l = log ++ more
  | DecodeOutOfFuel => True
  end.
Proof.
  revert r h log. induction fuel as [|fuel IH]; intros r h log;
    [exact I|].
  cbn [decode_loop].
  destruct (parse_frame r) as [| | |message bytes_read|];
    try (exists []; now rewrite app_nil_r).
  - destruct (buffer_size r * 2 >? INT_MAX); exists []; now rewrite app_nil_r.
  - destruct (handle_response h message) as [h' done].
    destruct done; [now exists [message]|].
    specialize (IH (shift r bytes_read) h' (log ++ [message])).
    destruct (decode_loop uninitialised H handle_response fuel
                (shift r bytes_read) h' (log ++ [message]));
      try exact I;
      destruct IH as [more ->]; exists (message :: more);
      now rewrite <- app_assoc.
Qed.

Lemma receive_loop_extends fuel conn r h log :
  exists more,
    handled (receive_loop uninitialised H handle_response fuel conn r h log)
    = log ++ more.
Proof.
  revert conn r h log. induction fuel as [|fuel IH]; intros conn r h log;
    [exists []; cbn; now rewrite app_nil_r|].
  cbn [receive_loop]. unfold iteration. cbv zeta.
  destruct (recv conn (buffer r) (total_bytes_received r)
              (buffer_size r - total_bytes_received r))
    as [n mem conn'| | |]; cbn [handled];
    try (exists []; now rewrite app_nil_r).
  destruct (n =? 0); cbn [handled]; [exists []; now rewrite app_nil_r|].
  match goal with
  | |- context [decode_loop _ _ _ ?f ?r1 h log] =>
      pose proof (decode_loop_extends f r1 h log) as Hext;
      destruct (decode_loop uninitialised H handle_response f r1 h log)
        as [r2 h2 l2|r2 h2 l2|r2 h2 l2|]
  end; cbn [handled]; try exact Hext.
  - destruct Hext as [more ->].
    destruct (IH conn' r2 h2 (log ++ more)) as [more' ->].
    exists (more ++ more'). now rewrite app_assoc.
  - exists []. now rewrite app_nil_r.
Qed.

(** What a decoded frame takes off the buffer fits the buffer. *)
Lemma parse_frame_fits r message bytes_read :
  parse_frame r = Complete message bytes_read ->
  bytes_read <= buffer_size r.
Proof.
  unfold parse_frame.
  destruct (strchr (buffer r) SP) as [i| |]; try discriminate.
  destruct (negb (isdigit (nth 0 (buffer r) NUL))); [discriminate|].
  destruct (CHAR_MESSAGE_LENGTH_SIZE <=? Z.of_nat i); [discriminate|].
  destruct (Z.gtb_spec (atoi (firstn i (buffer r)))
              (buffer_size r - Z.of_nat i - 1)); [discriminate|].
  destruct (total_bytes_received r <? atoi (firstn i (buffer r)));
    [discriminate|].
  intros Heq. injection Heq as _ <-.
  pose proof (cstr_length (firstn i (buffer r))) as Hc.
  pose proof (length_firstn i (buffer r)) as Hf.
  unfold strlen. lia.
Qed.

Lemma shift_well_kept r bytes_read :
  well_kept r -> 0 <= bytes_read <= buffer_size r ->
  well_kept (shift r bytes_read).
Proof.
  intros [Hlen Htot] Hbr. unfold well_kept, shift.
  cbn [buffer buffer_size total_bytes_received].
  split; [|lia].
  rewrite length_app, length_firstn, !length_skipn. lia.
Qed.

Lemma grow_well_kept r :
  well_kept r -> well_kept (grow uninitialised r).
Proof.
  intros [Hlen Htot]. unfold well_kept, grow.
  cbn [buffer buffer_size total_bytes_received].
  rewrite length_app, length_map, length_seq. lia.
Qed.

Lemma decode_loop_well_kept fuel r h log :
  well_kept r ->
  match decode_loop uninitialised H handle_response fuel r h log with
  | Break r' _ _ | AllDone r' _ _ | DecodeFault r' _ _ => well_kept r'
  | DecodeOutOfFuel => True
  end.
Proof.
  revert r h log. induction fuel as [|fuel IH]; intros r h log Hr;
    [exact I|].
  cbn [decode_loop].
  destruct (parse_frame r) as [| | |message bytes_read|] eqn:Hp;
    try exact Hr.
  - destruct Hr as [Hlen Htot]. unfold well_kept, set_total.
    cbn [buffer buffer_size total_bytes_received]. lia.
  - destruct (buffer_size r * 2 >? INT_MAX);
      [exact Hr | now apply grow_well_kept].
  - destruct (handle_response h message) as [h' done].
    destruct done; [exact Hr|].
    apply IH. apply shift_well_kept; [exact Hr|].
    pose proof (parse_frame_progress _ _ _ Hp).
    pose proof (parse_frame_fits _ _ _ Hp). lia.
Qed.

Lemma recv_well_kept conn r n mem conn' :
  well_kept r ->
  recv conn (buffer r) (total_bytes_received r)
       (buffer_size r - total_bytes_received r) = Received n mem conn' ->
  n <> 0 ->
  well_kept (mkReassembly mem (buffer_size r) (total_bytes_received r + n)).
Proof.
  intros [Hlen Htot]. unfold recv.
  destruct conn as [|[data|] rest]; try discriminate.
  destruct data as [|x data];
    [intros Heq Hn; injection Heq as <- _ _; contradiction|].
  set (d := x :: data).
  destruct (Z.eqb_spec (buffer_size r - total_bytes_received r) 0);
    [intros Heq Hn; injection Heq as <- _ _; contradiction|].
  destruct (Z.ltb_spec (buffer_size r - total_bytes_received r) 0); [lia|].
  set (k := Z.min (Z.of_nat (length d))
                  (buffer_size r - total_bytes_received r)).
  assert (Hk : 1 <= k <= Z.of_nat (length d)
               /\ k <= buffer_size r - total_bytes_received r).
  { unfold k. assert (1 <= Z.of_nat (length d)) by (unfold d; simpl; lia).
    lia. }
  destruct (Z.ltb_spec (total_bytes_received r) 0); [discriminate|].
  cbn [orb].
  destruct (Z.ltb_spec (Z.of_nat (length (buffer r)))
              (total_bytes_received r + k)); [discriminate|].
  assert (Hmem : Z.of_nat (length (firstn (Z.to_nat (total_bytes_received r))
                                     (buffer r)
                                   ++ firstn (Z.to_nat k) d
                                   ++ skipn (Z.to_nat (total_bytes_received r + k))
                                        (buffer r)))
                 = buffer_size r).
  { rewrite !length_app, !length_firstn, length_skipn. lia. }
  destruct (skipn (Z.to_nat k) d); intros Heq Hn; injection Heq as <- <- _;
    (split; cbn [buffer buffer_size total_bytes_received];
     [exact Hmem | lia]).
Qed.

End ReceiveLoop.

(** X4.  tcp_client_receive_response never returns a failure value: every
    return is EXIT_SUCCESS, and a read that fails ends the process by
    exit(EXIT_FAILURE) in whatever state the loop is, with nothing more
    given to the callback. *)
Theorem receive_error_exits
    (uninitialised : nat -> ascii) (H : Type)
    (handle_response : H -> list ascii -> H * bool)
    (conn : list recv_event) (h : H) (rc : Z)
    (Hret : ended (tcp_client_receive_response uninitialised H
                     handle_response conn h) = Returned rc) :
  rc = EXIT_SUCCESS
  /\ forall fuel conn' r h' log,
       receive_loop uninitialised H handle_response (S fuel)
         (RecvError :: conn') r h' log
       = mkRun (Exited EXIT_FAILURE) log h' r.
Proof.
  split; [|reflexivity].
  unfold tcp_client_receive_response in Hret.
  now apply receive_loop_returns_success in Hret.
Qed.

Lemma receive_error_exits_witness :
  EXIT_SUCCESS = EXIT_SUCCESS
  /\ forall fuel conn' r h' log,
       receive_loop zeroed nat count_down (S fuel)
         (RecvError :: conn') r h' log
       = mkRun (Exited EXIT_FAILURE) log h' r.
Proof.
  refine (receive_error_exits zeroed nat count_down
            [RecvBytes (lit "5 HELLO"); RecvError] 1%nat EXIT_SUCCESS _).
  vm_compute. reflexivity.
Defined.

(** X5.  The inner loop always ends: a pass that hands a message to the
    callback needs a count that is not negative and takes between two and
    buffer_size bytes off it, so from a count [t] the loop is left after at
    most t/2 + 2 passes (one pass when t is negative). *)
Theorem decode_loop_terminates
    (uninitialised : nat -> ascii) (H : Type)
    (handle_response : H -> list ascii -> H * bool)
    (r : reassembly) (h : H) (log : list (list ascii)) (fuel : nat)
    (Hpasses : (if total_bytes_received r <? 0 then 1
                else total_bytes_received r / 2 + 2) <= Z.of_nat fuel) :
  decode_loop uninitialised H handle_response fuel r h log <> DecodeOutOfFuel
  /\ (forall message bytes_read,
         parse_frame r = Complete message bytes_read ->
         0 <= total_bytes_received r /\ 2 <= bytes_read <= buffer_size r).
Proof.
  split; [now apply decode_loop_total|].
  intros message bytes_read Hp.
  pose proof (parse_frame_progress _ _ _ Hp).
  pose proof (parse_frame_fits _ _ _ Hp). lia.
Qed.

Lemma decode_loop_terminates_witness :
  decode_loop zeroed unit keep_going 5
    (mkReassembly (lit "1 a1 b1 c" ++ repeat NUL 7) 16 6) tt []
  <> DecodeOutOfFuel.
Proof.
  refine (proj1 (decode_loop_terminates zeroed unit keep_going
                   (mkReassembly (lit "1 a1 b1 c" ++ repeat NUL 7) 16 6)
                   tt [] 5 _)).
  vm_compute. discriminate.
Defined.

(** X6.  The bookkeeping of the buffer is kept by every pass of the outer
    loop: buffer_size stays the size of the allocation and the count of
    valid bytes never exceeds it; and as long as that count is not
    negative, recv is never made to write outside the buffer. *)
Theorem receive_keeps_bookkeeping
    (uninitialised : nat -> ascii) (H : Type)
    (handle_response : H -> list ascii -> H * bool)
    (conn : list recv_event) (r : reassembly) (h : H)
    (log : list (list ascii))
    (Hkept : well_kept r) :
  well_kept (initial uninitialised)
  /\ match iteration uninitialised H handle_response conn r h log with
     | Again _ r' _ _ => well_kept r'
     | Stop res => well_kept (locals res)
     end
  /\ (0 <= total_bytes_received r ->
      recv conn (buffer r) (total_bytes_received r)
           (buffer_size r - total_bytes_received r) <> RecvFault).
Proof.
  split; [|split].
  - unfold well_kept, initial. cbn [buffer buffer_size total_bytes_received].
    rewrite length_map, length_seq. unfold DEFAULT_BUFFER_SIZE. lia.
  - unfold iteration. cbv zeta.
    destruct (recv conn (buffer r) (total_bytes_received r)
                (buffer_size r - total_bytes_received r))
      as [n mem conn'| | |] eqn:Hrecv; cbn [locals]; try exact Hkept.
    destruct (Z.eqb_spec n 0); cbn [locals]; [exact Hkept|].
    pose proof (recv_well_kept conn r n mem conn' Hkept Hrecv ltac:(assumption))
      as Hr1.
    cbn [total_bytes_received].
    pose proof (decode_loop_well_kept uninitialised H handle_response
                  (S (Z.to_nat (total_bytes_received r + n)))
                  _ h log Hr1) as Hdec.
    destruct (decode_loop uninitialised H handle_response
                (S (Z.to_nat (total_bytes_received r + n)))
                (mkReassembly mem (buffer_size r) (total_bytes_received r + n))
                h log); cbn [locals]; try exact Hdec. exact Hr1.
  - intros Htot. destruct Hkept as [Hlen Hle]. unfold recv.
    destruct conn as [|[data|] rest]; try discriminate.
    destruct data as [|x data]; [discriminate|].
    destruct (buffer_size r - total_bytes_received r =? 0); [discriminate|].
    destruct (Z.ltb_spec (buffer_size r - total_bytes_received r) 0); [lia|].
    destruct (Z.ltb_spec (total_bytes_received r) 0); [lia|]. cbn [orb].
    match goal with
    | |- context [?a <? ?b] => destruct (Z.ltb_spec a b); [lia|]
    end.
    destruct (skipn _ (x :: data)); discriminate.
Qed.

Lemma receive_keeps_bookkeeping_witness :
  well_kept (initial zeroed)
  /\ match iteration zeroed unit keep_going [RecvBytes (lit "3 ab")]
             (mkReassembly (repeat NUL 8) 8 0) tt [] with
     | Again _ r' _ _ => well_kept r'
     | Stop res => well_kept (locals res)
     end
  /\ (0 <= 0 ->
      recv [RecvBytes (lit "3 ab")] (repeat NUL 8) 0 (8 - 0) <> RecvFault).
Proof.
  refine (receive_keeps_bookkeeping zeroed unit keep_going
            [RecvBytes (lit "3 ab")] (mkReassembly (repeat NUL 8) 8 0) tt []
            _).
  split; [reflexivity | vm_compute; discriminate].
Defined.

(** ** A frame larger than the buffer *)

Lemma frame_prefix p k :
  (length (print_int (Z.of_nat (length p))) + 1 <= k)%nat ->
  firstn k (frame p)
  = print_int (Z.of_nat (length p))
    ++ SP :: firstn (k - length (print_int (Z.of_nat (length p))) - 1) p.
Proof.
  intros Hk. unfold frame. rewrite firstn_app.
  rewrite firstn_all2 by lia. f_equal.
  destruct (k - length (print_int (Z.of_nat (length p))))%nat as [|j] eqn:E;
    [lia|].
  cbn [firstn]. f_equal. f_equal. lia.
Qed.

(** A buffer that starts with a decimal length larger than the room behind
    it is too small. *)
Lemma parse_frame_too_small ds stuff size total :
  ds <> [] -> forallb isdigit ds = true -> (length ds < 10)%nat ->
  atoi ds > size - Z.of_nat (length ds) - 1 ->
  parse_frame (mkReassembly (ds ++ SP :: stuff) size total) = TooSmall.
Proof.
  intros Hne Hd Hk Hbig.
  unfold parse_frame. cbn [buffer buffer_size total_bytes_received].
  rewrite strchr_app by now apply digits_no_space.
  assert (Hc : isdigit (nth 0 (ds ++ SP :: stuff) NUL) = true).
  { destruct ds as [|c ds]; [contradiction|]. simpl in *.
    apply andb_prop in Hd. tauto. }
  rewrite Hc. cbn [negb]. unfold CHAR_MESSAGE_LENGTH_SIZE.
  rewrite firstn_exact.
  destruct (Z.leb_spec 10 (Z.of_nat (length ds))); [lia|].
  destruct (Z.gtb_spec (atoi ds) (size - Z.of_nat (length ds) - 1));
    [reflexivity | lia].
Qed.

(** A read into a buffer with room behind [offset] bytes: it takes what is
    waiting, up to the room, and leaves the rest on the connection. *)
Lemma recv_fill data conn mem (offset : nat) :
  data <> [] -> (offset < length mem)%nat ->
  recv (RecvBytes data :: conn) mem (Z.of_nat offset)
       (Z.of_nat (length mem) - Z.of_nat offset)
  = Received (Z.of_nat (Nat.min (length data) (length mem - offset)))
      (firstn offset mem
       ++ firstn (Nat.min (length data) (length mem - offset)) data
       ++ skipn (offset + Nat.min (length data) (length mem - offset)) mem)
      (match skipn (Nat.min (length data) (length mem - offset)) data with
       | [] => conn
       | unread => RecvBytes unread :: conn
       end).
Proof.
  intros Hne Hroom. unfold recv.
  destruct data as [|x d] eqn:E; [contradiction|].
  cbv beta iota. rewrite <- E in *. clear E Hne.
  destruct (Z.eqb_spec (Z.of_nat (length mem) - Z.of_nat offset) 0); [lia|].
  destruct (Z.ltb_spec (Z.of_nat (length mem) - Z.of_nat offset) 0); [lia|].
  replace (Z.min (Z.of_nat (length data))
                 (Z.of_nat (length mem) - Z.of_nat offset))
    with (Z.of_nat (Nat.min (length data) (length mem - offset))) by lia.
  destruct (Z.ltb_spec (Z.of_nat offset) 0); [lia|]. cbn [orb].
  match goal with
  | |- context [?a <? ?b] => destruct (Z.ltb_spec a b); [lia|]
  end.
  rewrite !Nat2Z.id.
  replace (Z.to_nat (Z.of_nat offset
                     + Z.of_nat (Nat.min (length data) (length mem - offset))))
    with (offset + Nat.min (length data) (length mem - offset))%nat by lia.
  now destruct (skipn (Nat.min (length data) (length mem - offset)) data).
Qed.

Section Growth.

Variable uninitialised : nat -> ascii.
Variable H : Type.
Variable handle_response : H -> list ascii -> H * bool.
Variable p : list ascii.
Hypothesis Hp : no_nul p = true.
Hypothesis Hlen : Z.of_nat (length p) < 10 ^ 9.

(** The outer loop while the frame of [p] arrives: [s] is what is buffered,
    [d] what still waits on the connection, [junk] the rest of the
    allocation. *)
Lemma receive_loop_growth fuel :
  forall s d junk size rest h log,
    s ++ d = frame p -> d <> [] ->
    (length s < size)%nat -> (10 <= size)%nat ->
    length junk = (size - length s)%nat ->
    (pending (RecvBytes d :: rest) < fuel)%nat ->
    let res := receive_loop uninitialised H handle_response fuel
                 (RecvBytes d :: rest)
                 (mkReassembly (s ++ junk) (Z.of_nat size)
                    (Z.of_nat (length s))) h log in
    (exists more, handled res = log ++ p :: more)
    /\ (snd (handle_response h p) = true ->
        handled res = log ++ [p]
        /\ ended res = Returned EXIT_SUCCESS
        /\ handler_state res = fst (handle_response h p)).
Proof.
  pose proof (print_int_all_digits (Z.of_nat (length p)) ltac:(lia)) as Hdig.
  pose proof (print_int_nonempty (Z.of_nat (length p)) ltac:(lia)) as Hne.
  pose proof (print_int_length (Z.of_nat (length p)) 8 ltac:(simpl; lia)) as Hk.
  pose proof (atoi_print_int (Z.of_nat (length p)) ltac:(lia)) as Hval.
  pose proof (frame_length p) as Hfl.
  set (ds := print_int (Z.of_nat (length p))) in *.
  induction fuel as [|fuel IH];
    intros s d junk size rest h log Hsd Hd Hroom Hsize Hjunk Hfuel res;
    [lia|].
  assert (Hmem : length (s ++ junk) = size) by (rewrite length_app; lia).
  assert (HL : (length (frame p) = length s + length d)%nat)
    by (rewrite <- Hsd; apply length_app).
  assert (Hdpos : (0 < length d)%nat)
    by (destruct d; [contradiction | simpl; lia]).
  assert (Hrecv := recv_fill d rest (s ++ junk) (length s) Hd ltac:(lia)).
  rewrite Hmem in Hrecv.
  rewrite (firstn_exact s junk) in Hrecv.
  subst res. cbn [receive_loop]. unfold iteration. cbv zeta.
  cbn [buffer buffer_size total_bytes_received].
  rewrite Hrecv. clear Hrecv.
  destruct (Z.eqb_spec (Z.of_nat (Nat.min (length d) (size - length s))) 0);
    [lia|].
  destruct (Nat.le_gt_cases (length d) (size - length s)) as [Hfits|Hmore].
  - (* the rest of the frame fits: it is decoded *)
    rewrite Nat.min_l by lia. rewrite firstn_all, skipn_all.
    rewrite (app_assoc s d), Hsd.
    set (tail := skipn (length s + length d) (s ++ junk)).
    replace (Z.of_nat (length s) + Z.of_nat (length d))
      with (Z.of_nat (length (frame p))) by lia.
    assert (Hparse :
      parse_frame (mkReassembly (frame p ++ tail) (Z.of_nat size)
                     (Z.of_nat (length (frame p))))
      = Complete p (Z.of_nat (length (frame p)))).
    { unfold frame at 1. rewrite <- app_assoc. cbn [app]. fold ds.
      rewrite parse_frame_at; try assumption; try lia.
      f_equal. lia. }
    pose proof (decode_loop_total uninitialised H handle_response
                  (S (Z.to_nat (Z.of_nat (length (frame p)))))
                  (mkReassembly (frame p ++ tail) (Z.of_nat size)
                     (Z.of_nat (length (frame p)))) h log) as Htotal.
    cbn [total_bytes_received] in Htotal.
    assert (Hfuel' :
      (if Z.of_nat (length (frame p)) <? 0 then 1
       else Z.of_nat (length (frame p)) / 2 + 2)
      <= Z.of_nat (S (Z.to_nat (Z.of_nat (length (frame p)))))).
    { destruct (Z.ltb_spec (Z.of_nat (length (frame p))) 0); [lia|].
      assert (Z.of_nat (length (frame p)) / 2 < Z.of_nat (length (frame p)))
        by (apply Z.div_lt; lia).
      lia. }
    specialize (Htotal Hfuel'). clear Hfuel'.
    revert Htotal. cbn [decode_loop]. rewrite Hparse.
    destruct (handle_response h p) as [h' done]. cbn [fst snd].
    destruct done.
    + intros _. cbn [handled ended handler_state].
      split; [exists []; reflexivity|]. intros _. repeat split.
    + intros Htotal.
      pose proof (decode_loop_extends uninitialised H handle_response
                    (Z.to_nat (Z.of_nat (length (frame p))))
                    (shift (mkReassembly (frame p ++ tail) (Z.of_nat size)
                              (Z.of_nat (length (frame p))))
                           (Z.of_nat (length (frame p))))
                    h' (log ++ [p])) as Hext.
      split; [|discriminate].
      destruct (decode_loop uninitialised H handle_response
                  (Z.to_nat (Z.of_nat (length (frame p))))
                  (shift (mkReassembly (frame p ++ tail) (Z.of_nat size)
                            (Z.of_nat (length (frame p))))
                         (Z.of_nat (length (frame p))))
                  h' (log ++ [p])) as [r2 h2 l2|r2 h2 l2|r2 h2 l2|];
        [| | |contradiction]; destruct Hext as [more ->]; cbn [handled].
      * destruct (receive_loop_extends uninitialised H handle_response
                    fuel rest r2 h2 ((log ++ [p]) ++ more)) as [more' ->].
        exists (more ++ more'). now rewrite <- !app_assoc.
      * exists more. now rewrite <- app_assoc.
      * exists more. now rewrite <- app_assoc.
  - (* the buffer is filled and too small: it is doubled *)
    rewrite Nat.min_r by lia.
    set (k := (size - length s)%nat) in *.
    replace (length s + k)%nat with size by lia.
    rewrite skipn_all2 by lia. rewrite app_nil_r.
    assert (Hd12 : firstn k d ++ skipn k d = d) by apply firstn_skipn.
    assert (Hn1 : length (firstn k d) = k) by (rewrite length_firstn; lia).
    destruct (skipn k d) as [|y unread] eqn:Eunread.
    { apply (f_equal (@length ascii)) in Eunread.
      rewrite length_skipn in Eunread. simpl in Eunread. lia. }
    rewrite <- Eunread in *.
    assert (Hs' : (s ++ firstn k d) ++ skipn k d = frame p)
      by (rewrite <- app_assoc, Hd12; exact Hsd).
    assert (Hlen' : length (s ++ firstn k d) = size)
      by (rewrite length_app; lia).
    assert (Hprefix : s ++ firstn k d
                      = ds ++ SP :: firstn (size - length ds - 1) p).
    { rewrite <- (firstn_exact (s ++ firstn k d) (skipn k d)).
      rewrite Hs', Hlen'. apply frame_prefix. fold ds. lia. }
    replace (Z.of_nat (length s) + Z.of_nat k) with (Z.of_nat size) by lia.
    assert (Hparse :
      parse_frame (mkReassembly (s ++ firstn k d) (Z.of_nat size)
                     (Z.of_nat size)) = TooSmall).
    { rewrite Hprefix. apply parse_frame_too_small; try assumption; lia. }
    cbn [decode_loop]. rewrite Hparse.
    cbn [buffer_size].
    destruct (Z.gtb_spec (Z.of_nat size * 2) INT_MAX) as [Hover|_].
    { unfold INT_MAX in Hover. change (10 ^ 9) with 1000000000 in Hlen. lia. }
    unfold grow. cbn [buffer buffer_size total_bytes_received].
    rewrite Nat2Z.id.
    replace (Z.of_nat size * 2) with (Z.of_nat (2 * size)) by lia.
    pose proof (IH (s ++ firstn k d) (skipn k d)
                  (map uninitialised (seq size size)) (2 * size)%nat
                  rest h log) as IH'.
    cbv zeta in IH'. rewrite Hlen' in IH'. apply IH'.
    + exact Hs'.
    + rewrite Eunread. discriminate.
    + lia.
    + lia.
    + rewrite length_map, length_seq. lia.
    + cbn [pending] in *. rewrite length_skipn. lia.
Qed.

End Growth.

(** X7.  A frame that waits whole on the connection is decoded whatever its
    size and whatever the unwritten memory holds (payload without NUL,
    length below 10^9): the buffer is filled and doubled until the frame
    fits, and the first message given to the callback is exactly the
    payload; when the callback reports completion on it, the function
    returns EXIT_SUCCESS having handed over that message alone. *)
Theorem receive_decodes_frame_of_any_size
    (uninitialised : nat -> ascii) (H : Type)
    (handle_response : H -> list ascii -> H * bool)
    (p : list ascii) (rest : list recv_event) (h : H)
    (Hp : no_nul p = true)
    (Hlen : Z.of_nat (length p) < 10 ^ 9) :
  let res := tcp_client_receive_response uninitialised H handle_response
               (RecvBytes (frame p) :: rest) h in
  (exists more, handled res = p :: more)
  /\ (snd (handle_response h p) = true ->
      handled res = [p]
      /\ ended res = Returned EXIT_SUCCESS
      /\ handler_state res = fst (handle_response h p)).
Proof.
  pose proof (frame_length_pos p) as Hpos.
  apply (receive_loop_growth uninitialised H handle_response p Hp Hlen
           (S (pending (RecvBytes (frame p) :: rest)))
           [] (frame p)
           (map uninitialised (seq 0 (Z.to_nat DEFAULT_BUFFER_SIZE)))
           1024%nat rest h []).
  - reflexivity.
  - intros Hnil. rewrite Hnil in Hpos. simpl in Hpos. lia.
  - simpl. lia.
  - lia.
  - rewrite length_map, length_seq. reflexivity.
  - lia.
Qed.

Lemma receive_decodes_frame_of_any_size_witness :
  let res := tcp_client_receive_response zeroed nat count_down
               (RecvBytes (frame (repeat "x"%char 3000)) :: [RecvError])
               1%nat in
  (exists more, handled res = repeat "x"%char 3000 :: more)
  /\ (snd (count_down 1%nat (repeat "x"%char 3000)) = true ->
      handled res = [repeat "x"%char 3000]
      /\ ended res = Returned EXIT_SUCCESS
      /\ handler_state res = fst (count_down 1%nat (repeat "x"%char 3000))).
Proof.
  refine (receive_decodes_frame_of_any_size zeroed nat count_down
            (repeat "x"%char 3000) [RecvError] 1%nat _ _).
  - vm_compute. reflexivity.
  - vm_compute. reflexivity.
Defined.

(** ** The script reader: end of file and lines it cannot hold *)

Lemma span_all (q : ascii -> bool) s : forallb q s = true -> span q s = (s, []).
Proof.
  induction s as [|c s IH]; simpl; [reflexivity|].
  intros Hs. apply andb_prop in Hs. destruct Hs as [-> Hs].
  now rewrite IH.
Qed.

(** One turn of the reader's loop on a line that starts with a word and a
    space, whatever ends it. *)
Lemma get_line_word_any tok tail fd a0 m0 :
  tok <> [] -> word tok = true -> no_nul tail = true ->
  tcp_client_get_line ((tok ++ SP :: tail) :: fd) a0 m0
  = match scan_action_message (tok ++ SP :: tail)
            (Z.of_nat (length tok) + 1) (Z.of_nat (length tail)) with
    | ScanFault => LineFault
    | Scanned (Text t) m' =>
        if is_valid_action t
        then LineResult (Z.of_nat (length (tok ++ SP :: tail))) (Text t) m' fd
        else tcp_client_get_line fd (Text t) m'
    | Scanned _ _ => LineFault
    end.
Proof.
  intros Hne Hw Htail.
  assert (Hline : no_nul (tok ++ SP :: tail) = true).
  { rewrite no_nul_app, (word_no_nul _ Hw). simpl. exact Htail. }
  destruct tok as [|c tok'] eqn:Etok; [contradiction|]. rewrite <- Etok in *.
  assert (Hc : isspace c = false).
  { rewrite Etok in Hw. simpl in Hw. apply andb_prop in Hw. destruct Hw as [Hc _].
    apply andb_prop in Hc. destruct Hc as [Hsp _]. now destruct (isspace c). }
  cbn [tcp_client_get_line].
  assert (E1 : streq (tok ++ SP :: tail) [LF] = false).
  { destruct (streq _ _) eqn:E; [|reflexivity].
    apply streq_true_iff in E. rewrite cstr_clean in E by assumption.
    rewrite Etok in E. simpl in E. injection E as -> _. discriminate Hc. }
  assert (E2 : Ascii.eqb (nth 0 (tok ++ SP :: tail) NUL) SP = false).
  { rewrite Etok. simpl.
    destruct (Ascii.eqb_spec c SP) as [->|]; [discriminate Hc|reflexivity]. }
  rewrite E1, E2. cbn [orb].
  rewrite <- (app_assoc tok (SP :: tail) [NUL]).
  change ((SP :: tail) ++ [NUL]) with (SP :: tail ++ [NUL]).
  rewrite strchr_app by (now apply word_no_space).
  rewrite cstr_clean by assumption.
  rewrite skipn_past, strlen_clean by assumption.
  reflexivity.
Qed.

(** X8.  A script in which every remaining line is passed over (empty,
    leading space, no space, unknown action) is read to its end without a
    fault: the reader returns -1 and leaves the file exhausted. *)
Theorem get_line_end_of_script
    (fd : list (list ascii)) (a0 m0 : slot)
    (Hfd : Forall skipped fd) :
  exists a m, tcp_client_get_line fd a0 m0 = LineResult (-1) a m [].
Proof.
  revert a0 m0. induction Hfd as [|line fd Hline _ IH]; intros a0 m0.
  - exists a0, m0. reflexivity.
  - destruct (get_line_skipped line fd a0 m0 Hline) as [a' [m' ->]].
    apply IH.
Qed.

Lemma get_line_end_of_script_witness :
  exists a m,
    tcp_client_get_line
      [[LF]; lit "nospace" ++ [LF]; lit "Reverse" ++ SP :: lit "abc" ++ [LF]]
      Untouched Untouched
    = LineResult (-1) a m [].
Proof.
  apply get_line_end_of_script.
  apply Forall_cons; [apply skipped_empty|].
  apply Forall_cons.
  { apply skipped_no_space. intros Hin. vm_compute in Hin.
    intuition discriminate. }
  apply Forall_cons; [|apply Forall_nil].
  apply (skipped_bad_action (lit "Reverse") (lit "abc"));
    [discriminate | reflexivity | reflexivity | reflexivity].
Defined.

(** X9.  A line that ends without a newline (the last line of a file) and
    holds a valid action, one space and a message overruns the allocation
    of the message: malloc(strlen(first_space_addr + 1)) leaves no room for
    the terminator that sscanf stores. *)
Theorem get_line_unterminated_line_overruns
    (tok msg : list ascii) (fd : list (list ascii)) (a0 m0 : slot)
    (Htok : In tok actions)
    (Hne : msg <> [])
    (Hhd : isspace (hd NUL msg) = false)
    (Hmsg : line_text msg = true) :
  tcp_client_get_line ((tok ++ SP :: msg) :: fd) a0 m0 = LineFault.
Proof.
  destruct (actions_are_words tok Htok) as [Htokne Hw].
  assert (Hnn : no_nul msg = true).
  { revert Hmsg. apply forallb_weaken. intros c Hc.
    apply andb_prop in Hc. tauto. }
  rewrite get_line_word_any by assumption.
  rewrite scan_after_word by assumption.
  destruct msg as [|x msg]; [contradiction|]. simpl in Hhd.
  rewrite skip_space_word by assumption.
  rewrite span_all.
  - destruct (Z.ltb_spec (Z.of_nat (length (x :: msg)))
                         (Z.of_nat (length (x :: msg)) + 1)); [reflexivity|lia].
  - revert Hmsg. apply forallb_weaken. intros c Hc.
    apply andb_prop in Hc. tauto.
Qed.

Lemma get_line_unterminated_line_overruns_witness :
  tcp_client_get_line [lit "shuffle" ++ SP :: lit "last line"]
    Untouched Untouched = LineFault.
Proof.
  refine (get_line_unterminated_line_overruns (lit "shuffle") (lit "last line")
            [] Untouched Untouched _ _ _ _).
  - vm_compute. tauto.
  - discriminate.
  - reflexivity.
  - reflexivity.
Defined.

(** X10.  A line made of a valid action, a space and nothing but white
    space up to its newline is accepted: the reader returns its length and
    the action, but nothing was stored in the message, which points to
    memory never written. *)
Theorem get_line_blank_message_unwritten
    (tok ws : list ascii) (fd : list (list ascii)) (a0 m0 : slot)
    (Htok : In tok actions)
    (Hws : forallb isspace ws = true) :
  tcp_client_get_line ((tok ++ SP :: ws ++ [LF]) :: fd) a0 m0
  = LineResult (Z.of_nat (length (tok ++ SP :: ws ++ [LF])))
      (Text tok) Unwritten fd.
Proof.
  destruct (actions_are_words tok Htok) as [Htokne Hw].
  assert (Hvalid : is_valid_action tok = true).
  { apply is_valid_action_iff. now rewrite cstr_clean by now apply word_no_nul. }
  assert (Hnn : no_nul ws = true).
  { revert Hws. apply forallb_weaken. intros c Hc.
    destruct (Ascii.eqb_spec c NUL) as [->|]; [discriminate Hc|reflexivity]. }
  rewrite get_line_word_line by assumption.
  rewrite scan_after_word by assumption.
  rewrite skip_space_spaces by assumption.
  cbn [skip_space]. change (isspace LF) with true. cbn [span].
  now rewrite Hvalid.
Qed.

Lemma get_line_blank_message_unwritten_witness :
  tcp_client_get_line [lit "random" ++ SP :: lit "  " ++ [LF]]
    Untouched Untouched
  = LineResult 10 (Text (lit "random")) Unwritten [].
Proof.
  refine (get_line_blank_message_unwritten (lit "random") (lit "  ") []
            Untouched Untouched _ _).
  - vm_compute. tauto.
  - reflexivity.
Defined.

(** ** Connecting *)

Lemma connect_loop_skips before servinfo opened0 closed0 :
  forallb unreachable before = true ->
  connect_loop (before ++ servinfo) opened0 closed0
  = connect_loop servinfo (opened0 ++ sockets_of before)
      (closed0 ++ sockets_of before).
Proof.
  revert opened0 closed0.
  induction before as [|p before IH]; intros opened0 closed0 Hall.
  - cbn [app sockets_of filter map]. now rewrite !app_nil_r.
  - cbn [forallb] in Hall. apply andb_prop in Hall. destruct Hall as [Hp Hall].
    cbn [app connect_loop]. unfold sockets_of. cbn [filter].
    unfold unreachable in Hp.
    destruct (ai_socket p =? -1) eqn:Hs; cbn [negb].
    + now apply IH.
    + cbn [orb] in Hp. rewrite Hp, IH by assumption.
      cbn [map]. unfold sockets_of. now rewrite <- !app_assoc.
Qed.

(** X11.  tcp_client_connect returns the descriptor of the first address in
    the list for which both socket and connect succeed; every descriptor
    opened for an earlier address has been closed, and no later address is
    tried. *)
Theorem connect_returns_first_reachable
    (getaddrinfo : list ascii -> list ascii -> Z * list addrinfo)
    (config : Config) (before after : list addrinfo) (good : addrinfo)
    (Hresolved : getaddrinfo (host config) (port config)
                 = (0, before ++ good :: after))
    (Hbefore : forallb unreachable before = true)
    (Hgood : unreachable good = false) :
  tcp_client_connect getaddrinfo config
  = mkConnection (Returned (ai_socket good))
      (sockets_of before ++ [ai_socket good]) (sockets_of before).
Proof.
  unfold tcp_client_connect. rewrite Hresolved. cbn [Z.eqb negb].
  rewrite connect_loop_skips by assumption. cbn [app connect_loop].
  unfold unreachable in Hgood. apply orb_false_elim in Hgood.
  destruct Hgood as [-> ->]. reflexivity.
Qed.

Lemma connect_returns_first_reachable_witness :
  tcp_client_connect
    (fun _ _ => (0, [mkAddrinfo (-1) 0; mkAddrinfo 3 (-1)]
                    ++ mkAddrinfo 4 0 :: [mkAddrinfo 5 0]))
    (mkConfig (lit "8080") (lit "localhost") (lit "-"))
  = mkConnection (Returned 4) [3; 4] [3].
Proof.
  refine (connect_returns_first_reachable _
            (mkConfig (lit "8080") (lit "localhost") (lit "-"))
            [mkAddrinfo (-1) 0; mkAddrinfo 3 (-1)] [mkAddrinfo 5 0]
            (mkAddrinfo 4 0) _ _ _); reflexivity.
Defined.

(** X12.  When the host and port do not resolve, tcp_client_connect ends
    the process with EXIT_FAILURE and opens nothing; when they resolve and
    no address can be connected to, it returns -1 and every descriptor it
    opened has been closed. *)
Theorem connect_failure_closes_sockets
    (getaddrinfo : list ascii -> list ascii -> Z * list addrinfo)
    (config : Config) (rv : Z) (servinfo : list addrinfo)
    (Hresolved : getaddrinfo (host config) (port config) = (rv, servinfo)) :
  (rv <> 0 ->
   tcp_client_connect getaddrinfo config
   = mkConnection (Exited EXIT_FAILURE) [] [])
  /\ (rv = 0 -> forallb unreachable servinfo = true ->
      tcp_client_connect getaddrinfo config
      = mkConnection (Returned (-1)) (sockets_of servinfo)
          (sockets_of servinfo)).
Proof.
  unfold tcp_client_connect. rewrite Hresolved. split.
  - intros Hrv. destruct (Z.eqb_spec rv 0); [contradiction | reflexivity].
  - intros -> Hall. cbn [Z.eqb negb].
    rewrite <- (app_nil_r servinfo) at 1.
    rewrite connect_loop_skips by assumption. reflexivity.
Qed.

Lemma connect_failure_closes_sockets_witness :
  tcp_client_connect
    (fun _ _ => (0, [mkAddrinfo 3 (-1); mkAddrinfo (-1) 0; mkAddrinfo 4 (-1)]))
    (mkConfig (lit "8080") (lit "localhost") (lit "-"))
  = mkConnection (Returned (-1)) [3; 4] [3; 4].
Proof.
  refine (proj2 (connect_failure_closes_sockets _
                   (mkConfig (lit "8080") (lit "localhost") (lit "-")) 0
                   [mkAddrinfo 3 (-1); mkAddrinfo (-1) 0; mkAddrinfo 4 (-1)]
                   _) _ _); reflexivity.
Defined.

(** ** Parsing the arguments *)

Lemma after_options_parsed argc argv optind config verbose rc config' verbose' :
  after_options argc argv optind config verbose = Parsed rc config' verbose' ->
  rc = EXIT_SUCCESS /\ argc - optind = 1
  /\ file config' = nth (Z.to_nat (argc - 1)) argv []
  /\ host config' = host config /\ port config' = port config.
Proof.
  unfold after_options, REQUIRED_NUMBER_OF_ARGUMENTS_OFFSET.
  destruct (Z.ltb_spec (argc - optind) 1); [discriminate|].
  destruct (Z.gtb_spec (argc - optind) 1); [discriminate|].
  intros Heq. injection Heq as <- <- _. cbn [file host port].
  repeat split. lia.
Qed.

Lemma options_loop_parsed options argc argv optind :
  forall config verbose rc config' verbose',
    options_loop options argc argv optind config verbose
    = Parsed rc config' verbose' ->
    rc = EXIT_SUCCESS /\ argc - optind = 1
    /\ file config' = nth (Z.to_nat (argc - 1)) argv []
    /\ host config' = last_optarg (code "h") options (host config)
    /\ port config' = last_optarg (code "p") options (port config)
    /\ (port config' = port config
        \/ forallb isdigit (cstr (port config')) = true).
Proof.
  change (code "h") with 104. change (code "p") with 112.
  induction options as [|[c optarg] options IH];
    intros config verbose rc config' verbose' Hrun.
  - cbn [options_loop] in Hrun. apply after_options_parsed in Hrun.
    cbn [last_optarg]. intuition.
  - cbn [options_loop last_optarg] in *.
    change (code "v") with 118 in Hrun. change (code "h") with 104 in Hrun.
    change (code "p") with 112 in Hrun. change (code "?") with 63 in Hrun.
    unfold ALL_OPTIONS_PARSED in *.
    destruct (Z.eqb_spec c (-1)) as [->|Hend].
    { apply after_options_parsed in Hrun. intuition. }
    destruct (Z.eqb_spec c 0) as [->|Hhelp]; [discriminate|].
    destruct (Z.eqb_spec c 118) as [->|Hv].
    { apply IH in Hrun. exact Hrun. }
    destruct (Z.eqb_spec c 104) as [->|Hh].
    { apply IH in Hrun. cbn [host port] in Hrun. exact Hrun. }
    destruct (Z.eqb_spec c 112) as [->|Hpt].
    { destruct (forallb isdigit (cstr optarg)) eqn:Hdig; [|discriminate].
      apply IH in Hrun. cbn [host port] in Hrun.
      destruct Hrun as [Hrc [Harg [Hfile [Hhost [Hport Hnum]]]]].
      repeat split; try assumption.
      destruct Hnum as [->|Hnum]; right; assumption. }
    destruct (Z.eqb_spec c 63) as [->|Hq]; [discriminate|].
    apply IH in Hrun. exact Hrun.
Qed.

(** X13.  Whenever tcp_client_parse_arguments returns, it returns
    EXIT_SUCCESS, exactly one argument was left after the options and the
    file is the last element of the argument vector; host and port are the
    arguments of the last -h and -p options, the defaults when there are
    none; and a port that is not the default consists of decimal digits
    only (the empty string included). *)
Theorem parse_arguments_returns
    (default_port default_host unset : list ascii)
    (argc : Z) (argv : list (list ascii)) (options : list (Z * list ascii))
    (optind rc : Z) (config : Config) (verbose : bool)
    (Hrun : tcp_client_parse_arguments default_port default_host
              argc argv options optind unset
            = Parsed rc config verbose) :
  rc = EXIT_SUCCESS /\ argc - optind = 1
  /\ file config = nth (Z.to_nat (argc - 1)) argv []
  /\ host config = last_optarg (code "h") options default_host
  /\ port config = last_optarg (code "p") options default_port
  /\ (port config = default_port
      \/ forallb isdigit (cstr (port config)) = true).
Proof.
  unfold tcp_client_parse_arguments in Hrun.
  apply options_loop_parsed in Hrun. exact Hrun.
Qed.

Lemma parse_arguments_returns_witness :
  EXIT_SUCCESS = EXIT_SUCCESS /\ 6 - 5 = 1
  /\ lit "script.txt" = lit "script.txt"
  /\ lit "example.org" = lit "example.org"
  /\ lit "" = lit ""
  /\ (lit "" = lit "8080"
      \/ forallb isdigit (cstr (lit "")) = true).
Proof.
  refine (parse_arguments_returns (lit "8080") (lit "localhost") []
            6 [lit "tcp_client"; lit "-p"; lit "81"; lit "-hexample.org";
               lit "-p"; lit "script.txt"]
            [(code "p", lit "81"); (code "h", lit "example.org");
             (code "p", lit "")]
            5 EXIT_SUCCESS
            (mkConfig (lit "") (lit "example.org") (lit "script.txt"))
            false _).
  reflexivity.
Defined.

Lemma options_loop_passes before options argc argv optind :
  forallb passes before = true ->
  forall config verbose,
  exists config' verbose',
    options_loop (before ++ options) argc argv optind config verbose
    = options_loop options argc argv optind config' verbose'.
Proof.
  induction before as [|[c optarg] before IH]; intros Hall config verbose.
  - exists config, verbose. reflexivity.
  - cbn [forallb] in Hall. apply andb_prop in Hall. destruct Hall as [Hc Hall].
    unfold passes in Hc. cbn [fst snd] in Hc.
    repeat (apply andb_prop in Hc; destruct Hc as [Hc ?]).
    cbn [app options_loop].
    destruct (c =? ALL_OPTIONS_PARSED); [discriminate|].
    destruct (c =? 0); [discriminate|].
    destruct (c =? code "v"); [apply IH; assumption|].
    destruct (c =? code "h"); [apply IH; assumption|].
    destruct (c =? code "p").
    + cbn [negb orb] in *.
      match goal with Hd : forallb isdigit _ = true |- _ => rewrite Hd end.
      apply IH; assumption.
    + destruct (c =? code "?"); [discriminate|]. apply IH; assumption.
Qed.

(** X14.  The first option that is the help option, an unknown option or a
    port with a character that is no decimal digit decides the call,
    whatever follows it and however many arguments are left: the help
    option ends the process with EXIT_SUCCESS, the other two with
    EXIT_FAILURE, and the function does not return. *)
Theorem parse_arguments_first_decisive_option
    (default_port default_host unset : list ascii)
    (argc : Z) (argv : list (list ascii))
    (before after : list (Z * list ascii)) (optarg : list ascii) (optind : Z)
    (Hbefore : forallb passes before = true) :
  tcp_client_parse_arguments default_port default_host argc argv
    (before ++ (0, optarg) :: after) optind unset
  = ParseExit EXIT_SUCCESS
  /\ tcp_client_parse_arguments default_port default_host argc argv
       (before ++ (code "?", optarg) :: after) optind unset
     = ParseExit EXIT_FAILURE
  /\ (forallb isdigit (cstr optarg) = false ->
      tcp_client_parse_arguments default_port default_host argc argv
        (before ++ (code "p", optarg) :: after) optind unset
      = ParseExit EXIT_FAILURE).
Proof.
  unfold tcp_client_parse_arguments.
  split; [|split; [|intros Hbad]].
  - destruct (options_loop_passes before ((0, optarg) :: after)
                argc argv optind Hbefore
                (mkConfig default_port default_host unset) false)
      as [config' [verbose' ->]].
    reflexivity.
  - destruct (options_loop_passes before ((code "?", optarg) :: after)
                argc argv optind Hbefore
                (mkConfig default_port default_host unset) false)
      as [config' [verbose' ->]].
    reflexivity.
  - destruct (options_loop_passes before ((code "p", optarg) :: after)
                argc argv optind Hbefore
                (mkConfig default_port default_host unset) false)
      as [config' [verbose' ->]].
    cbn [options_loop].
    change (code "p" =? ALL_OPTIONS_PARSED) with false.
    change (code "p" =? 0) with false.
    change (code "p" =? code "v") with false.
    change (code "p" =? code "h") with false.
    change (code "p" =? code "p") with true.
    cbv beta iota. now rewrite Hbad.
Qed.

Lemma parse_arguments_first_decisive_option_witness :
  tcp_client_parse_arguments (lit "8080") (lit "localhost") 4
    [lit "tcp_client"; lit "-v"; lit "-p"; lit "80a"]
    ([(code "v", [])] ++ (code "p", lit "80a") :: []) 4 []
  = ParseExit EXIT_FAILURE.
Proof.
  refine (proj2 (proj2 (parse_arguments_first_decisive_option
                          (lit "8080") (lit "localhost") [] 4
                          [lit "tcp_client"; lit "-v"; lit "-p"; lit "80a"]
                          [(code "v", [])] [] (lit "80a") 4 _)) _);
    reflexivity.
Defined.
